(** * pers-flow: the dual-view graph editor of [src/App.tsx]

    A shallow embedding of the synchronisation logic of the two application
    variants found in [src/App.tsx]: the shared graph state held by
    [DualViewFlow] (nodes, edges, selected node), its mutation callbacks
    ([updateNodePosition], [deleteNode], [setSelectedNode], [onConnect]),
    the planar/scene conversions of [Node3D] and the 3D edge path built by
    [Edge3D].

    JavaScript numbers are modelled by the real numbers: every arithmetic
    law below is the exact law that the floating-point code approximates.
    Where a branch of the code depends on a comparison of computed numbers
    (the elbow of the second variant's route), the code is modelled on IEEE
    doubles as well, and the branch is stated on those.
    React state is modelled by explicit state passing: every callback is a
    function from the state before the event to the state after it. *)

From Stdlib Require Import List String Bool Reals Lra.
From Stdlib Require ZArith Floats.
Import ListNotations.

Local Open Scope string_scope.
Local Open Scope R_scope.

(** ** Data model *)

(** [{ x: number; y: number }], the planar position of a node. *)
Record Position : Type := mkPosition { x : R; y : R }.

(** [THREE.Vector3]. *)
Record Vector3 : Type := mkVector3 { vx : R; vy : R; vz : R }.

(** An element of the [nodes] array: [{ id, data: { label }, position, type }]. *)
Record Node : Type := mkNode {
  id : string;
  label : string;
  position : Position;
  type : string
}.

(** An element of the [edges] array.  The presentational fields ([type],
    [style], [markerEnd]) play no part in any callback and are left out; the
    optional handles are kept because the library's [addEdge] reads them
    ([None] stands for an absent or [null] handle). *)
Record Edge : Type := mkEdge {
  edge_id : string;
  source : string;
  target : string;
  sourceHandle : option string;
  targetHandle : option string
}.

(** The three [useState]/[useNodesState]/[useEdgesState] cells of
    [DualViewFlow] that the callbacks read and write. *)
Record State : Type := mkState {
  nodes : list Node;
  edges : list Edge;
  selectedNode : option string
}.

(** JavaScript [===] and [!==] on strings. *)
Definition strict_eq (a b : string) : bool := String.eqb a b.
Definition strict_neq (a b : string) : bool := negb (String.eqb a b).

(** [selectedNode === id], where [selectedNode : string | null]. *)
Definition selected_is (sel : option string) (i : string) : bool :=
  match sel with
  | Some s => strict_eq s i
  | None => false
  end.

(** ** The callbacks of [DualViewFlow] (textually the same in both variants) *)

(** [setSelectedNode]: the plain state setter. *)
Definition setSelectedNode (sel : option string) (s : State) : State :=
  mkState (nodes s) (edges s) sel.

(** [updateNodePosition]: [nds.map] replacing the position of the nodes whose
    id is [i] by a fresh [{ x: newPos.x, y: newPos.y }]. *)
Definition updateNodePosition (i : string) (newPos : Position) (s : State) : State :=
  mkState
    (map (fun node =>
            if strict_eq (id node) i
            then mkNode (id node) (label node)
                        (mkPosition (x newPos) (y newPos)) (type node)
            else node)
         (nodes s))
    (edges s)
    (selectedNode s).

(** [deleteNode]: two [filter]s and the conditional reset of the selection,
    all inside one callback invocation. *)
Definition deleteNode (i : string) (s : State) : State :=
  mkState
    (filter (fun node => strict_neq (id node) i) (nodes s))
    (filter (fun edge => strict_neq (source edge) i && strict_neq (target edge) i)
            (edges s))
    (if selected_is (selectedNode s) i then None else selectedNode s).

(** [nodes.find((n) => n.id === i)]. *)
Definition find_node (i : string) (nds : list Node) : option Node :=
  find (fun n => strict_eq (id n) i) nds.

(** An element of [edgesWithPositions]. *)
Record EdgeWithPositions : Type := mkEdgeWithPositions {
  ewp_edge : Edge;
  sourcePosition : Position;
  targetPosition : Position
}.

(** [node?.position || { x: 0, y: 0 }]: a position object is always truthy,
    so the fallback is taken exactly when the node was not found. *)
Definition position_or_origin (n : option Node) : Position :=
  match n with
  | Some node => position node
  | None => mkPosition 0 0
  end.

Definition edgesWithPositions (s : State) : list EdgeWithPositions :=
  map (fun edge =>
         mkEdgeWithPositions edge
           (position_or_origin (find_node (source edge) (nodes s)))
           (position_or_origin (find_node (target edge) (nodes s))))
      (edges s).

(** The seed data [initialNodes] and [initialEdges]. *)
Definition initialNodes : list Node :=
  [ mkNode "1" "Node 1" (mkPosition 0 0) "custom";
    mkNode "2" "Node 2" (mkPosition 200 100) "custom";
    mkNode "3" "Node 3" (mkPosition (-100) 100) "custom" ].

Definition initialEdges : list Edge :=
  [ mkEdge "e1-2" "1" "2" None None;
    mkEdge "e1-3" "1" "3" None None ].

Definition initialState : State := mkState initialNodes initialEdges None.

(** ** Well-formedness of the state *)

Definition node_ids (s : State) : list string := map id (nodes s).

(** Invariant 1 of the data model: both endpoints of every edge are live. *)
Definition edges_live (s : State) : Prop :=
  forall e, In e (edges s) -> In (source e) (node_ids s) /\ In (target e) (node_ids s).

(** The selection invariant: the selection, if any, names a live node. *)
Definition selection_live (s : State) : Prop :=
  forall i, selectedNode s = Some i -> In i (node_ids s).

Definition well_formed (s : State) : Prop := edges_live s /\ selection_live s.

(** The events through which the two views reach the shared state.  Every
    call site of [setSelectedNode] with a string passes the id of a node
    that is being rendered from [nodes] ([props.id] in [CustomNode], [id] in
    [Node3D], [node.id] in [onNodeClick]); [onPaneClick] passes [null].
    The change lists that the diagramming library sends through
    [onNodesChange] and [onEdgesChange] are modelled apart, below. *)
Inductive Event : Type :=
| NodeClick (i : string)
| PaneClick
| Drag (i : string) (newPos : Position)
| DeleteClick (i : string).

Definition handle (ev : Event) (s : State) : State :=
  match ev with
  | NodeClick i => setSelectedNode (Some i) s
  | PaneClick => setSelectedNode None s
  | Drag i p => setSelectedNode (Some i) (updateNodePosition i p s)
  | DeleteClick i => deleteNode i s
  end.

(** An event that selects a node selects one of the rendered nodes. *)
Definition selects_rendered (s : State) (ev : Event) : Prop :=
  match ev with
  | NodeClick i | Drag i _ => In i (node_ids s)
  | PaneClick | DeleteClick _ => True
  end.

(** ** The library functions the source calls *)

(** The functions of [Math] and [THREE.Vector3] used by [Edge3D], over the
    reals. *)
Module JSMath.

(** [Math.abs]. *)
Definition abs (a : R) : R := Rabs a.

(** [Math.atan2(b, a)]: the angle of the point [(a, b)], in [(-PI, PI]],
    with [atan2(0, 0) = 0]. *)
Definition atan2 (b a : R) : R :=
  if Rlt_dec 0 a then atan (b / a)
  else if Rlt_dec a 0 then
    (if Rle_dec 0 b then atan (b / a) + PI else atan (b / a) - PI)
  else if Rlt_dec 0 b then PI / 2
  else if Rlt_dec b 0 then - (PI / 2)
  else 0.

End JSMath.

Module THREE.

(** [new THREE.Vector3().subVectors(a, b)]. *)
Definition subVectors (a b : Vector3) : Vector3 :=
  mkVector3 (vx a - vx b) (vy a - vy b) (vz a - vz b).

(** [v.length()]. *)
Definition length (v : Vector3) : R :=
  sqrt (vx v * vx v + vy v * vy v + vz v * vz v).

(** [v.multiplyScalar(k)] and [v.divideScalar(k)], the latter being
    [multiplyScalar(1 / k)]. *)
Definition multiplyScalar (v : Vector3) (k : R) : Vector3 :=
  mkVector3 (vx v * k) (vy v * k) (vz v * k).

Definition divideScalar (v : Vector3) (k : R) : Vector3 :=
  multiplyScalar v (1 / k).

(** [v.normalize()], that is [v.divideScalar(v.length() || 1)]: a zero
    length is falsy and replaced by [1]. *)
Definition normalize (v : Vector3) : Vector3 :=
  divideScalar v (if Req_dec_T (length v) 0 then 1 else length v).

(** [new THREE.Vector3().setFromMatrixPosition(m)] reads the translation
    column of [m]; a drag matrix is represented by that column. *)
Definition setFromMatrixPosition (translation : Vector3) : Vector3 := translation.

End THREE.

(** What [Edge3D] hands to the scene: the [points] of the [Line], and the
    [position] and [rotation] of the arrow-head [mesh]. *)
Record Edge3DOutput : Type := mkEdge3DOutput {
  points : list Vector3;
  arrowPosition : Vector3;
  arrowRotation : Vector3
}.

(** ** First variant (lines 1 to 566 of the source) *)
Module App1.

(** [Node3D], the [useEffect]: where the group of a node is placed. *)
Definition Node3D_position (position : Position) : Vector3 :=
  mkVector3 (x position / 50) ((- y position) / 50) 0.005.

(** [Node3D], [handleTransformChange]: the planar position handed to
    [updateNodePosition] for a drag matrix (the group is mounted). *)
Definition dragged_position (matrix : Vector3) : Position :=
  let position := THREE.setFromMatrixPosition matrix in
  mkPosition (vx position * 50) ((- vy position) * 50).

Definition handleTransformChange (i : string) (matrix : Vector3) (s : State) : State :=
  updateNodePosition i (dragged_position matrix) s.

(** [onDrag] of the [PivotControls] around a node. *)
Definition onDrag (i : string) (matrix : Vector3) (s : State) : State :=
  setSelectedNode (Some i) (handleTransformChange i matrix s).

Definition Edge3D (sourcePosition targetPosition : Position) : Edge3DOutput :=
  let startPoint :=
    mkVector3 (x sourcePosition / 25) ((- y sourcePosition) / 25) 0.005 in
  let endPoint :=
    mkVector3 (x targetPosition / 25) ((- y targetPosition) / 25 + 0.5) 0.005 in
  let firstPivot := mkVector3 (vx startPoint) (vy startPoint - 0.8) 0.005 in
  let lastPivot := mkVector3 (vx endPoint) (vy endPoint + 0.8) 0.005 in
  let xAxisDistance := vx lastPivot - vx firstPivot in
  let mid1 := mkVector3 (xAxisDistance / 2) (vy firstPivot) 0.005 in
  let mid2 := mkVector3 (xAxisDistance / 2) (vy lastPivot) 0.005 in
  mkEdge3DOutput
    [startPoint; firstPivot; mid1; mid2; lastPivot; endPoint]
    (mkVector3 (vx endPoint) (vy endPoint + 0.12) 0.005)
    (mkVector3 0 0 PI).

(** The [Edge3D] elements rendered from [edgesWithPositions]. *)
Definition renderEdges (s : State) : list Edge3DOutput :=
  map (fun edge => Edge3D (sourcePosition edge) (targetPosition edge))
      (edgesWithPositions s).

End App1.

(** ** Second variant (lines 567 to 1109 of the source) *)
Module App2.

(** [Node3D], the [useEffect]: only [x] and [y] of the group position are
    assigned, [z] keeps its default [0]. *)
Definition Node3D_position (position : Position) : Vector3 :=
  mkVector3 (x position / 100) ((- y position) / 100) 0.

Definition dragged_position (matrix : Vector3) : Position :=
  let position := THREE.setFromMatrixPosition matrix in
  mkPosition (vx position * 100) ((- vy position) * 100).

Definition handleTransformChange (i : string) (matrix : Vector3) (s : State) : State :=
  updateNodePosition i (dragged_position matrix) s.

Definition onDrag (i : string) (matrix : Vector3) (s : State) : State :=
  setSelectedNode (Some i) (handleTransformChange i matrix s).

Definition Edge3D (sourcePosition targetPosition : Position) : Edge3DOutput :=
  let startPoint :=
    mkVector3 (x sourcePosition / 50) ((- y sourcePosition) / 50) 0.005 in
  let endPoint :=
    mkVector3 (x targetPosition / 50) ((- y targetPosition) / 50) 0.005 in
  let xAxisDistance := JSMath.abs (vx endPoint - vx startPoint) in
  let yAxisDistance := JSMath.abs (vy endPoint - vy startPoint) in
  let mid :=
    mkVector3
      (if Rgt_dec xAxisDistance yAxisDistance then vx endPoint else vx startPoint)
      (if Rgt_dec xAxisDistance yAxisDistance then vy startPoint else vy endPoint)
      0.005 in
  let direction := THREE.normalize (THREE.subVectors endPoint mid) in
  let angle := JSMath.atan2 (vy direction) (vx direction) + PI / 2 in
  mkEdge3DOutput
    [startPoint; mid; endPoint]
    (mkVector3 (vx endPoint) (vy endPoint) 0.005)
    (mkVector3 0 0 angle).

Definition renderEdges (s : State) : list Edge3DOutput :=
  map (fun edge => Edge3D (sourcePosition edge) (targetPosition edge))
      (edgesWithPositions s).

(** The conversion that [Edge3D] applies to both of its positions. *)
Definition scenePoint (p : Position) : Vector3 :=
  mkVector3 (x p / 50) ((- y p) / 50) 0.005.

End App2.

(** ** Connecting two nodes (second variant only) *)

(** The payload of a connect gesture. *)
Record Connection : Type := mkConnection {
  conn_source : string;
  conn_target : string;
  conn_sourceHandle : option string;
  conn_targetHandle : option string
}.

Section OnConnect.

(** [addEdge] is imported from the diagramming library. *)
Variable addEdge : Connection -> list Edge -> list Edge.

(** [onConnect]: [setEdges((eds) => addEdge(connection, eds))]. *)
Definition onConnect (connection : Connection) (s : State) : State :=
  mkState (nodes s) (addEdge connection (edges s)) (selectedNode s).

End OnConnect.

Section OnChanges.

(** [applyNodeChanges] and [applyEdgeChanges] are imported from the
    diagramming library, which also builds the change lists. *)
Variables NodeChanges EdgeChanges : Type.
Variable applyNodeChanges : NodeChanges -> list Node -> list Node.
Variable applyEdgeChanges : EdgeChanges -> list Edge -> list Edge.

(** [onNodesChange]: [setNodes((nds) => applyNodeChanges(changes, nds))]
    (written out in the second variant, returned by [useNodesState] in the
    first). *)
Definition onNodesChange (changes : NodeChanges) (s : State) : State :=
  mkState (applyNodeChanges changes (nodes s)) (edges s) (selectedNode s).

(** [onEdgesChange]: [setEdges((eds) => applyEdgeChanges(changes, eds))]. *)
Definition onEdgesChange (changes : EdgeChanges) (s : State) : State :=
  mkState (nodes s) (applyEdgeChanges changes (edges s)) (selectedNode s).

End OnChanges.

(** The library's [addEdge], as published in [@xyflow/system]
    ([utils/edges/general.ts]); it is not code of this repository.  It
    returns the list unchanged when the source or the target is falsy or when
    the same connection is already listed, and otherwise appends an edge whose
    id is derived from the connection. *)
Module XYFlow.

(** [h || ''] and [!h] for an optional handle. *)
Definition handle_or_empty (h : option string) : string :=
  match h with Some t => t | None => "" end.

Definition falsy (a : string) : bool := String.eqb a "".

Definition falsy_handle (h : option string) : bool := falsy (handle_or_empty h).

Definition handle_eq (a b : option string) : bool :=
  match a, b with
  | Some u, Some v => String.eqb u v
  | None, None => true
  | _, _ => false
  end.

Definition getEdgeId (c : Connection) : string :=
  String.append "xy-edge__"
    (String.append (conn_source c)
       (String.append (handle_or_empty (conn_sourceHandle c))
          (String.append "-"
             (String.append (conn_target c)
                (handle_or_empty (conn_targetHandle c)))))).

Definition connectionExists (edge : Edge) (eds : list Edge) : bool :=
  existsb (fun el =>
             strict_eq (source el) (source edge)
             && strict_eq (target el) (target edge)
             && (handle_eq (sourceHandle el) (sourceHandle edge)
                 || (falsy_handle (sourceHandle el) && falsy_handle (sourceHandle edge)))
             && (handle_eq (targetHandle el) (targetHandle edge)
                 || (falsy_handle (targetHandle el) && falsy_handle (targetHandle edge))))
          eds.

Definition addEdge (edgeParams : Connection) (eds : list Edge) : list Edge :=
  if falsy (conn_source edgeParams) || falsy (conn_target edgeParams) then eds
  else
    let edge :=
      mkEdge (getEdgeId edgeParams) (conn_source edgeParams) (conn_target edgeParams)
             (conn_sourceHandle edgeParams) (conn_targetHandle edgeParams) in
    if connectionExists edge eds then eds else eds ++ [edge].

(** The library's [applyNodeChanges] and [applyEdgeChanges]
    ([utils/changes.ts] of [@xyflow/react]), for change lists made of
    [{ id, type: 'remove' }] only, which is what the library sends when the
    user deletes the elements selected in the 2D view: an element whose id
    has a change is left out, every other element is kept, in order.  The
    other kinds of change are not modelled. *)
Inductive RemoveChange : Type := remove (i : string).

Definition change_id (c : RemoveChange) : string :=
  match c with remove i => i end.

Definition has_change (changes : list RemoveChange) (i : string) : bool :=
  existsb (fun c => String.eqb (change_id c) i) changes.

Definition applyNodeChanges (changes : list RemoveChange) (nds : list Node) : list Node :=
  filter (fun element => negb (has_change changes (id element))) nds.

Definition applyEdgeChanges (changes : list RemoveChange) (eds : list Edge) : list Edge :=
  filter (fun element => negb (has_change changes (edge_id element))) eds.

End XYFlow.

(** ** The properties of the specification, as predicates *)

(** Two scene points with the same [x] and [y]. *)
Definition same_xy (u v : Vector3) : Prop := vx u = vx v /\ vy u = vy v.

(** "Edges attach to the nodes they connect": the first and the last
    waypoint of every route lie where [place] puts the two nodes. *)
Definition endpoints_attached
    (place : Position -> Vector3) (route : Position -> Position -> list Vector3) : Prop :=
  forall sp tp,
    exists a b, hd_error (route sp tp) = Some a
             /\ hd_error (rev (route sp tp)) = Some b
             /\ same_xy a (place sp) /\ same_xy b (place tp).

(** The elbow in the specification's words: the axis with the larger
    absolute delta is traversed first; the elbow has the target's coordinate
    on that axis and the source's coordinate on the other; on a tie the
    vertical axis comes first. *)
Definition spec_elbow (s e : Vector3) : Vector3 :=
  if Rlt_dec (Rabs (vy e - vy s)) (Rabs (vx e - vx s))
  then mkVector3 (vx e) (vy s) (vz s)
  else if Rlt_dec (Rabs (vx e - vx s)) (Rabs (vy e - vy s))
  then mkVector3 (vx s) (vy e) (vz s)
  else mkVector3 (vx s) (vy e) (vz s).

Definition routes_dominant_axis_first (pts : list Vector3) : Prop :=
  exists s e, pts = [s; spec_elbow s e; e].

(** The last segment of a polyline, and its angle. *)
Definition final_segment (pts : list Vector3) : option (Vector3 * Vector3) :=
  match rev pts with
  | e :: m :: _ => Some (m, e)
  | _ => None
  end.

Definition segment_angle (a b : Vector3) : R :=
  JSMath.atan2 (vy b - vy a) (vx b - vx a).

Definition arrow_follows_final_segment (o : Edge3DOutput) : Prop :=
  exists m e, final_segment (points o) = Some (m, e)
           /\ vz (arrowRotation o) = segment_angle m e + PI / 2.

(** The same with an arbitrary turn, and rotations compared as directions
    (that is, up to whole turns). *)
Definition arrow_turned_by (turn : R) (o : Edge3DOutput) : Prop :=
  exists m e, final_segment (points o) = Some (m, e)
           /\ cos (vz (arrowRotation o)) = cos (segment_angle m e + turn)
           /\ sin (vz (arrowRotation o)) = sin (segment_angle m e + turn).

(** The length of a polyline: the sum of the lengths of its segments. *)
Fixpoint polyline_length (pts : list Vector3) : R :=
  match pts with
  | a :: (b :: _) as rest => THREE.length (THREE.subVectors b a) + polyline_length rest
  | _ => 0
  end.

(** A connection names a node that is not in the store. *)
Definition unknown_endpoint (s : State) (c : Connection) : Prop :=
  ~ In (conn_source c) (node_ids s) \/ ~ In (conn_target c) (node_ids s).

(** "A connect request with an unknown endpoint adds no edge", for
    [onConnect] over a given [addEdge]. *)
Definition rejects_unknown_endpoints
    (addEdge : Connection -> list Edge -> list Edge) : Prop :=
  forall s c, unknown_endpoint s c -> edges (onConnect addEdge c s) = edges s.

(** ** Further parts of the source *)

(** *** Sequences of events *)

(** The state after a sequence of view events, oldest first. *)
Fixpoint run (evs : list Event) (s : State) : State :=
  match evs with
  | [] => s
  | ev :: rest => run rest (handle ev s)
  end.

(** Every selecting event of the sequence names a node rendered at the time
    it happens. *)
Fixpoint run_selects_rendered (evs : list Event) (s : State) : Prop :=
  match evs with
  | [] => True
  | ev :: rest => selects_rendered s ev /\ run_selects_rendered rest (handle ev s)
  end.

(** The condition under which [edgesWithPositions] logs "Missing node for
    edge": [!sourceNode || !targetNode]. *)
Definition missing_node (s : State) (edge : Edge) : bool :=
  match find_node (source edge) (nodes s), find_node (target edge) (nodes s) with
  | Some _, Some _ => false
  | _, _ => true
  end.

(** *** What the views show of the selection *)

(** [Node3D]: [scale={selectedNode === id ? 1.2 : 0}] of the
    [PivotControls], and the colour of the mesh. *)
Definition pivotScale (sel : option string) (i : string) : R :=
  if selected_is sel i then 1.2 else 0.

Definition meshColor (sel : option string) (i : string) : string :=
  if selected_is sel i then "#ff8800" else "#2a2a2a".

(** The text after "Selected: " in the [Panel]: [selectedNode || "None"],
    where [null] and the empty string are falsy. *)
Definition panelSelected (sel : option string) : string :=
  match sel with
  | Some i => if String.eqb i "" then "None" else i
  | None => "None"
  end.

(** The option menu of a node ([CustomNode] and [Node3D] alike): the local
    [optionMenuON] flag beside the shared state. *)
Definition handleNodeClick (i : string) (ui : bool * State) : bool * State :=
  (negb (fst ui), setSelectedNode (Some i) (snd ui)).

Definition handleDeleteNode (i : string) (ui : bool * State) : bool * State :=
  (false, deleteNode i (snd ui)).

Fixpoint clicks (n : nat) (i : string) (ui : bool * State) : bool * State :=
  match n with
  | O => ui
  | S k => clicks k i (handleNodeClick i ui)
  end.

(** *** The view mode *)

(** [viewMode : "2d" | "3d"]. *)
Inductive ViewMode : Type := view2d | view3d.

Definition ViewMode_eqb (a b : ViewMode) : bool :=
  match a, b with
  | view2d, view2d | view3d, view3d => true
  | _, _ => false
  end.

(** The [display] class of the two view containers. *)
Definition display2D (viewMode : ViewMode) : string :=
  if ViewMode_eqb viewMode view2d then "block" else "hidden".

Definition display3D (viewMode : ViewMode) : string :=
  if ViewMode_eqb viewMode view3d then "block" else "hidden".

(** The colour classes of the "2D View" and "3D View" buttons. *)
Definition button2D (viewMode : ViewMode) : string :=
  if ViewMode_eqb viewMode view3d then "bg-gray-700 text-white"
  else "bg-gray-100 text-black".

Definition button3D (viewMode : ViewMode) : string :=
  if ViewMode_eqb viewMode view2d then "bg-gray-700 text-white"
  else "bg-gray-100 text-black".

(** *** The refs of a first-variant [Node3D] *)

(** [groupRef.current.position] (absent while [groupRef.current] is null),
    [initialPositionRef.current] and [isDraggingRef.current]. *)
Record Node3DRefs : Type := mkNode3DRefs {
  groupRef : option Vector3;
  initialPositionRef : Vector3;
  isDraggingRef : bool
}.

(** The body of the [useEffect]. *)
Definition Node3D_useEffect (position : Position) (refs : Node3DRefs) : Node3DRefs :=
  match groupRef refs with
  | Some _ =>
      let px := x position / 50 in
      let py := (- y position) / 50 in
      mkNode3DRefs (Some (mkVector3 px py 0.005)) (mkVector3 px py 0.005) false
  | None => refs
  end.

(** Mounting: the refs get their initial values, the group is attached at
    its default position, then the effect runs. *)
Definition Node3D_mount (position : Position) : Node3DRefs :=
  Node3D_useEffect position
    (mkNode3DRefs (Some (mkVector3 0 0 0))
                  (mkVector3 (x position / 50) ((- y position) / 50) 0.005)
                  false).

(** A later render: the effect runs again exactly when [position.x] or
    [position.y] differs from the previous render. *)
Definition Node3D_rerender (previous position : Position) (refs : Node3DRefs)
  : Node3DRefs :=
  if Req_dec_T (x previous) (x position) then
    if Req_dec_T (y previous) (y position) then refs
    else Node3D_useEffect position refs
  else Node3D_useEffect position refs.

(** [handleTransformChange], refs included: nothing happens while the group
    is not attached; the first frame of a drag puts the group back at
    [initialPositionRef]; every frame updates the position in the store. *)
Definition Node3D_handleTransformChange
    (i : string) (matrix : Vector3) (rs : Node3DRefs * State) : Node3DRefs * State :=
  let (refs, s) := rs in
  match groupRef refs with
  | Some _ =>
      let refs' :=
        if negb (isDraggingRef refs)
        then mkNode3DRefs (Some (initialPositionRef refs)) (initialPositionRef refs) true
        else refs in
      let position := THREE.setFromMatrixPosition matrix in
      (refs', updateNodePosition i (mkPosition (vx position * 50) ((- vy position) * 50)) s)
  | None => (refs, s)
  end.

(** The group of a [Node3D] is where its planar position says. *)
Definition Node3D_synced (position : Position) (refs : Node3DRefs) : Prop :=
  groupRef refs = Some (App1.Node3D_position position)
  /\ initialPositionRef refs = App1.Node3D_position position.

(** *** Shape of a route *)

(** A segment that runs along one axis of the plane. *)
Definition axis_aligned (a b : Vector3) : Prop :=
  (vx a = vx b \/ vy a = vy b) /\ vz a = vz b.

Fixpoint orthogonal (pts : list Vector3) : Prop :=
  match pts with
  | a :: (b :: _) as rest => axis_aligned a b /\ orthogonal rest
  | _ => True
  end.

(** ** The second variant's route on IEEE doubles *)

(** The waypoints of the second variant's [Edge3D] with JavaScript's own
    numbers: binary64 floating point, every operation rounded to nearest. *)
Module App2Doubles.

Import Floats.
Local Open Scope float_scope.
Set Warnings "-inexact-float".

Record FPosition : Type := mkFPosition { fx : float; fy : float }.

Record FVector3 : Type := mkFVector3 { fvx : float; fvy : float; fvz : float }.

(** [new THREE.Vector3(position.x / 50, -position.y / 50, 0.005)]. *)
Definition scenePoint (position : FPosition) : FVector3 :=
  mkFVector3 (fx position / 50) ((- fy position) / 50) 0.005.

(** [Math.abs(endPoint.x - startPoint.x)] and
    [Math.abs(endPoint.y - startPoint.y)]. *)
Definition xAxisDistance (startPoint endPoint : FVector3) : float :=
  abs (fvx endPoint - fvx startPoint).

Definition yAxisDistance (startPoint endPoint : FVector3) : float :=
  abs (fvy endPoint - fvy startPoint).

(** [points={[startPoint, mid, endPoint]}]; [a > b] is [b < a]. *)
Definition Edge3D_points (sourcePosition targetPosition : FPosition) : list FVector3 :=
  let startPoint :=
    mkFVector3 (fx sourcePosition / 50) ((- fy sourcePosition) / 50) 0.005 in
  let endPoint :=
    mkFVector3 (fx targetPosition / 50) ((- fy targetPosition) / 50) 0.005 in
  let xAxisDistance := abs (fvx endPoint - fvx startPoint) in
  let yAxisDistance := abs (fvy endPoint - fvy startPoint) in
  let mid :=
    mkFVector3
      (if yAxisDistance <? xAxisDistance then fvx endPoint else fvx startPoint)
      (if yAxisDistance <? xAxisDistance then fvy startPoint else fvy endPoint)
      0.005 in
  [startPoint; mid; endPoint].

End App2Doubles.

(** * Properties *)

(** Evaluates an absolute value of constants inside a comparison. *)
Ltac eval_Rabs := unfold Rabs; repeat destruct Rcase_abs; lra.

(** ** Lists and string comparison *)

Lemma strict_eq_true (a b : string) : strict_eq a b = true <-> a = b.
Proof. unfold strict_eq. apply String.eqb_eq. Qed.

Lemma strict_neq_true (a b : string) : strict_neq a b = true <-> a <> b.
Proof.
  unfold strict_neq. rewrite negb_true_iff. split.
  - intros H E. apply String.eqb_eq in E. congruence.
  - intros H. destruct (String.eqb a b) eqn:E; [|reflexivity].
    apply String.eqb_eq in E. contradiction.
Qed.

Lemma strict_eq_refl (a : string) : strict_eq a a = true.
Proof. apply strict_eq_true. reflexivity. Qed.


Lemma map_unchanged {A : Type} (f : A -> A) (l : list A) :
  (forall a, In a l -> f a = a) -> map f l = l.
Proof.
  induction l as [|a l IH]; intros H; simpl; [reflexivity|].
  rewrite (H a (or_introl eq_refl)). f_equal. apply IH.
  intros b Hb. apply H. right. exact Hb.
Qed.

(** ** The graph store *)

Lemma deleteNode_nodes (i : string) (s : State) (n : Node) :
  In n (nodes (deleteNode i s)) <-> In n (nodes s) /\ id n <> i.
Proof. simpl. rewrite filter_In, strict_neq_true. reflexivity. Qed.

Lemma deleteNode_edges (i : string) (s : State) (e : Edge) :
  In e (edges (deleteNode i s))
  <-> In e (edges s) /\ source e <> i /\ target e <> i.
Proof.
  simpl. rewrite filter_In, andb_true_iff, !strict_neq_true. reflexivity.
Qed.

Lemma deleteNode_node_ids (i j : string) (s : State) :
  In j (node_ids (deleteNode i s)) <-> In j (node_ids s) /\ j <> i.
Proof.
  unfold node_ids. rewrite !in_map_iff. split.
  - intros [n [Hn Hin]]. apply deleteNode_nodes in Hin. destruct Hin as [Hin Hne].
    subst j. split; [exists n; auto | exact Hne].
  - intros [[n [Hn Hin]] Hne]. exists n. split; [exact Hn|].
    apply deleteNode_nodes. subst j. auto.
Qed.

Lemma updateNodePosition_node_ids (i : string) (p : Position) (s : State) :
  node_ids (updateNodePosition i p s) = node_ids s.
Proof.
  unfold node_ids. simpl. rewrite map_map. apply map_ext.
  intros n. destruct (strict_eq (id n) i); reflexivity.
Qed.


Lemma initialState_well_formed : well_formed initialState.
Proof.
  split.
  - intros e He. simpl in He.
    destruct He as [<-|[<-|[]]]; simpl; auto.
  - intros i Hi. discriminate Hi.
Qed.





Lemma deleteNode_selection_live (i : string) (s : State) :
  selection_live s -> selection_live (deleteNode i s).
Proof.
  intros H j Hj. simpl in Hj. apply deleteNode_node_ids.
  destruct (selectedNode s) as [k|] eqn:Ek; simpl in Hj.
  - destruct (strict_eq k i) eqn:E; [discriminate Hj|].
    injection Hj as <-. split.
    + apply H. exact Ek.
    + intros ->. rewrite strict_eq_refl in E. discriminate E.
  - discriminate Hj.
Qed.

Lemma deleteNode_clears_selection (i : string) (s : State) :
  selectedNode s = Some i -> selectedNode (deleteNode i s) = None.
Proof. intros H. simpl. rewrite H. simpl. rewrite strict_eq_refl. reflexivity. Qed.

(** The selection under the view events.  If the selection is none or
    names a live node, it still is after
    any event of the two views (a click on a rendered node, a click on the
    empty pane, a drag of a rendered node, a delete of any id); the seed
    state has a live selection; [deleteNode(id)] clears the selection
    whenever [id] is the current selection, in particular right after
    [setSelectedNode(id)]; and [onConnect] keeps a live selection live. *)
Theorem selection_invariant :
  selection_live initialState
  /\ (forall s ev,
         selection_live s -> selects_rendered s ev -> selection_live (handle ev s))
  /\ (forall s i, selectedNode s = Some i -> selectedNode (deleteNode i s) = None)
  /\ (forall s i, selectedNode (deleteNode i (setSelectedNode (Some i) s)) = None)
  /\ (forall addEdge c s, selection_live s -> selection_live (onConnect addEdge c s)).
Proof.
  split; [|split; [|split; [|split]]].
  - apply initialState_well_formed.
  - intros s ev Hs Hev. destruct ev as [i| |i p|i]; simpl in Hev.
    + intros j Hj. simpl in Hj. injection Hj as <-. exact Hev.
    + intros j Hj. discriminate Hj.
    + intros j Hj. simpl in Hj. injection Hj as <-.
      change (In i (node_ids (updateNodePosition i p s))).
      rewrite updateNodePosition_node_ids. exact Hev.
    + apply deleteNode_selection_live. exact Hs.
  - intros s i. apply deleteNode_clears_selection.
  - intros s i. apply deleteNode_clears_selection. reflexivity.
  - intros addEdge c s H. exact H.
Qed.

Lemma selection_invariant_witness :
  selection_live (handle (DeleteClick "2") (handle (NodeClick "2") initialState))
  /\ selectedNode (handle (DeleteClick "2") (handle (NodeClick "2") initialState)) = None.
Proof.
  assert (H0 : selection_live initialState) by exact (proj1 selection_invariant).
  assert (H1 : selects_rendered initialState (NodeClick "2")).
  { simpl. right. left. reflexivity. }
  pose proof (proj1 (proj2 selection_invariant) initialState (NodeClick "2") H0 H1) as H2.
  split.
  - exact (proj1 (proj2 selection_invariant) _ (DeleteClick "2") H2 I).
  - exact (proj1 (proj2 (proj2 selection_invariant))
             (handle (NodeClick "2") initialState) "2" eq_refl).
Defined.

(** C2. The selection does not always name a present node.  Node 1 of the
    seed state is clicked, so it is selected; the user then deletes it in
    the 2D view with the keyboard, and the library reports the removal of
    node 1 and of its two edges through [onNodesChange] and [onEdgesChange].
    Afterwards the nodes are 2 and 3, there is no edge, and the selection is
    still "1", which names no node.  The same deletion through [deleteNode]
    gives the same nodes and edges and resets the selection.  [onNodesChange]
    never touches the selection, whatever the library function does. *)
Theorem onNodesChange_removal_dangling_selection :
  let s0 := handle (NodeClick "1") initialState in
  let s1 :=
    onEdgesChange _ XYFlow.applyEdgeChanges [XYFlow.remove "e1-2"; XYFlow.remove "e1-3"]
      (onNodesChange _ XYFlow.applyNodeChanges [XYFlow.remove "1"] s0) in
  selection_live s0
  /\ node_ids s1 = ["2"; "3"] /\ edges s1 = [] /\ selectedNode s1 = Some "1"
  /\ ~ selection_live s1
  /\ node_ids (deleteNode "1" s0) = ["2"; "3"]
  /\ edges (deleteNode "1" s0) = []
  /\ selectedNode (deleteNode "1" s0) = None
  /\ (forall (C : Type) (applyNodeChanges : C -> list Node -> list Node) changes s,
         selectedNode (onNodesChange C applyNodeChanges changes s) = selectedNode s
         /\ edges (onNodesChange C applyNodeChanges changes s) = edges s).
Proof.
  cbv zeta. split.
  { intros i Hi. simpl in Hi. injection Hi as <-. left. reflexivity. }
  split; [reflexivity|]. split; [reflexivity|]. split; [reflexivity|].
  split.
  { intros H. specialize (H "1" eq_refl). simpl in H.
    destruct H as [H|[H|[]]]; discriminate H. }
  split; [reflexivity|]. split; [reflexivity|]. split; [reflexivity|].
  intros C f changes s. split; reflexivity.
Qed.

(** C7. [updateNodePosition(id, p)] leaves the whole state unchanged when
    [id] names no node; in every case it leaves the edges and the selection
    unchanged and maps the node list position by position: a node named [id]
    keeps its id, label and type and gets the position [p], any other node
    is kept as it is. *)
Theorem updateNodePosition_frame :
  (forall s i p, ~ In i (node_ids s) -> updateNodePosition i p s = s)
  /\ (forall s i p,
         edges (updateNodePosition i p s) = edges s
         /\ selectedNode (updateNodePosition i p s) = selectedNode s
         /\ List.length (nodes (updateNodePosition i p s)) = List.length (nodes s)
         /\ forall k n, nth_error (nodes s) k = Some n ->
              nth_error (nodes (updateNodePosition i p s)) k
              = Some (if String.eqb (id n) i
                      then mkNode (id n) (label n) p (type n)
                      else n)).
Proof.
  split.
  - intros s i p Hi. destruct s as [nds eds sel]. unfold updateNodePosition. simpl.
    f_equal. apply map_unchanged. intros n Hn.
    destruct (strict_eq (id n) i) eqn:E; [|reflexivity].
    apply strict_eq_true in E. exfalso. apply Hi. unfold node_ids. simpl.
    subst i. apply in_map. exact Hn.
  - intros s i p. split; [reflexivity|]. split; [reflexivity|]. split.
    + simpl. apply length_map.
    + intros k n Hk. simpl. rewrite nth_error_map, Hk. simpl.
      unfold strict_eq. destruct p as [px py]. reflexivity.
Qed.

Lemma updateNodePosition_frame_witness :
  ~ In "4" (node_ids initialState)
  /\ updateNodePosition "4" (mkPosition 50 50) initialState = initialState.
Proof.
  assert (Hno : ~ In "4" (node_ids initialState)).
  { simpl. intros [H|[H|[H|[]]]]; discriminate H. }
  split; [exact Hno|].
  exact (proj1 updateNodePosition_frame initialState "4" (mkPosition 50 50) Hno).
Defined.

(** ** The coordinate mapping *)

(** C3. In each variant the planar position computed from a drag matrix
    ([handleTransformChange]) and the scene position computed from a planar
    position ([Node3D]) are inverse to each other on the two planar
    coordinates: dividing by the variant's divisor and negating the vertical
    axis is undone by multiplying by the same divisor and negating it
    again. *)
Theorem planar_scene_inverse :
  (forall p, App1.dragged_position (App1.Node3D_position p) = p)
  /\ (forall p, App2.dragged_position (App2.Node3D_position p) = p)
  /\ (forall v, same_xy (App1.Node3D_position (App1.dragged_position v)) v)
  /\ (forall v, same_xy (App2.Node3D_position (App2.dragged_position v)) v).
Proof.
  split; [|split; [|split]].
  - intros [px py]. unfold App1.dragged_position, App1.Node3D_position,
      THREE.setFromMatrixPosition. simpl. f_equal; lra.
  - intros [px py]. unfold App2.dragged_position, App2.Node3D_position,
      THREE.setFromMatrixPosition. simpl. f_equal; lra.
  - intros [a b c]. unfold same_xy, App1.dragged_position, App1.Node3D_position,
      THREE.setFromMatrixPosition. simpl. split; lra.
  - intros [a b c]. unfold same_xy, App2.dragged_position, App2.Node3D_position,
      THREE.setFromMatrixPosition. simpl. split; lra.
Qed.

(** ** Where the edges start and end *)

Lemma edgesWithPositions_found (s : State) (edge : EdgeWithPositions) (ns nt : Node) :
  In edge (edgesWithPositions s) ->
  find_node (source (ewp_edge edge)) (nodes s) = Some ns ->
  find_node (target (ewp_edge edge)) (nodes s) = Some nt ->
  sourcePosition edge = position ns /\ targetPosition edge = position nt.
Proof.
  unfold edgesWithPositions. intros Hin Hs Ht.
  apply in_map_iff in Hin. destruct Hin as [e [<- _]]. simpl in *.
  rewrite Hs, Ht. split; reflexivity.
Qed.

(** C4, as stated, fails in both variants: for the seed edge from node 1 at
    (0, 0) to node 2 at (200, 100) the route ends at x = 8 (first variant)
    and x = 4 (second variant), while the node is placed at x = 4 and x = 2. *)
Lemma edge_endpoints_not_attached :
  ~ endpoints_attached App1.Node3D_position (fun sp tp => points (App1.Edge3D sp tp))
  /\ ~ endpoints_attached App2.Node3D_position (fun sp tp => points (App2.Edge3D sp tp)).
Proof.
  split; intros H;
    destruct (H (mkPosition 0 0) (mkPosition 200 100)) as [a [b [Ha [Hb [_ [Hx _]]]]]];
    simpl in Hb; injection Hb as <-; simpl in Hx; lra.
Qed.

(** C4, amended. For every edge rendered in the 3D view whose two nodes are
    found, the route starts at the source's planar position divided by the
    edge divisor (25 in the first variant, 50 in the second) with the vertical
    axis negated, and ends at the target's position mapped the same way (plus
    0.5 vertically in the first variant); this divisor is half the one that
    places the nodes, so both waypoints have twice the coordinates of the
    nodes' scene positions. *)
Theorem edge_endpoints_scale (s : State) (edge : EdgeWithPositions) (ns nt : Node) :
  In edge (edgesWithPositions s) ->
  find_node (source (ewp_edge edge)) (nodes s) = Some ns ->
  find_node (target (ewp_edge edge)) (nodes s) = Some nt ->
  let o1 := App1.Edge3D (sourcePosition edge) (targetPosition edge) in
  let o2 := App2.Edge3D (sourcePosition edge) (targetPosition edge) in
  let n1s := App1.Node3D_position (position ns) in
  let n1t := App1.Node3D_position (position nt) in
  let n2s := App2.Node3D_position (position ns) in
  let n2t := App2.Node3D_position (position nt) in
  In o1 (App1.renderEdges s) /\ In o2 (App2.renderEdges s)
  /\ hd_error (points o1)
     = Some (mkVector3 (x (position ns) / 25) ((- y (position ns)) / 25) 0.005)
  /\ hd_error (rev (points o1))
     = Some (mkVector3 (x (position nt) / 25) ((- y (position nt)) / 25 + 0.5) 0.005)
  /\ hd_error (points o2)
     = Some (mkVector3 (x (position ns) / 50) ((- y (position ns)) / 50) 0.005)
  /\ hd_error (rev (points o2))
     = Some (mkVector3 (x (position nt) / 50) ((- y (position nt)) / 50) 0.005)
  /\ x (position ns) / 25 = 2 * vx n1s /\ (- y (position ns)) / 25 = 2 * vy n1s
  /\ x (position nt) / 25 = 2 * vx n1t /\ (- y (position nt)) / 25 = 2 * vy n1t
  /\ x (position ns) / 50 = 2 * vx n2s /\ (- y (position ns)) / 50 = 2 * vy n2s
  /\ x (position nt) / 50 = 2 * vx n2t /\ (- y (position nt)) / 50 = 2 * vy n2t.
Proof.
  intros Hin Hs Ht.
  destruct (edgesWithPositions_found s edge ns nt Hin Hs Ht) as [Es Et].
  rewrite Es, Et. cbv zeta.
  split. { unfold App1.renderEdges. rewrite <- Es, <- Et.
           apply (in_map (fun e => App1.Edge3D (sourcePosition e) (targetPosition e))).
           exact Hin. }
  split. { unfold App2.renderEdges. rewrite <- Es, <- Et.
           apply (in_map (fun e => App2.Edge3D (sourcePosition e) (targetPosition e))).
           exact Hin. }
  split; [reflexivity|]. split; [reflexivity|].
  split; [reflexivity|]. split; [reflexivity|].
  simpl. repeat split; lra.
Qed.

Lemma edge_endpoints_scale_witness :
  hd_error (rev (points (App1.Edge3D (mkPosition 0 0) (mkPosition 200 100))))
  = Some (mkVector3 (200 / 25) ((- 100) / 25 + 0.5) 0.005).
Proof.
  pose (e := mkEdgeWithPositions (mkEdge "e1-2" "1" "2" None None)
                                 (mkPosition 0 0) (mkPosition 200 100)).
  pose (n1 := mkNode "1" "Node 1" (mkPosition 0 0) "custom").
  pose (n2 := mkNode "2" "Node 2" (mkPosition 200 100) "custom").
  assert (Hin : In e (edgesWithPositions initialState)) by (left; reflexivity).
  assert (Hs : find_node (source (ewp_edge e)) (nodes initialState) = Some n1)
    by reflexivity.
  assert (Ht : find_node (target (ewp_edge e)) (nodes initialState) = Some n2)
    by reflexivity.
  pose proof (edge_endpoints_scale initialState e n1 n2 Hin Hs Ht) as H.
  exact (proj1 (proj2 (proj2 (proj2 H)))).
Defined.

(** ** The route of an edge *)

Lemma App2_points (sp tp : Position) :
  points (App2.Edge3D sp tp)
  = [App2.scenePoint sp;
     spec_elbow (App2.scenePoint sp) (App2.scenePoint tp);
     App2.scenePoint tp].
Proof.
  unfold App2.Edge3D, spec_elbow, App2.scenePoint, JSMath.abs. cbv zeta. simpl.
  set (dx := Rabs (x tp / 50 - x sp / 50)).
  set (dy := Rabs (- y tp / 50 - - y sp / 50)).
  destruct (Rgt_dec dx dy) as [G|G]; destruct (Rlt_dec dy dx) as [L|L];
    try (exfalso; unfold Rgt in *; lra); [reflexivity|].
  destruct (Rlt_dec dx dy); reflexivity.
Qed.

(** C5, as stated, fails for the first variant: from (0, 0) to (250, 0) the
    horizontal delta (10) exceeds the vertical one (0.5), yet the route has
    six waypoints and its first leg goes vertically from (0, 0) to
    (0, -0.8). *)
Lemma App1_route_ignores_deltas :
  let pts := points (App1.Edge3D (mkPosition 0 0) (mkPosition 250 0)) in
  pts = [ mkVector3 0 0 0.005; mkVector3 0 (-0.8) 0.005; mkVector3 5 (-0.8) 0.005;
          mkVector3 5 1.3 0.005; mkVector3 10 1.3 0.005; mkVector3 10 0.5 0.005 ]
  /\ ~ routes_dominant_axis_first pts.
Proof.
  cbv zeta. split.
  - unfold App1.Edge3D. cbv zeta. simpl.
    repeat (f_equal; try lra).
  - intros [s [e H]]. apply (f_equal (@List.length Vector3)) in H.
    simpl in H. discriminate H.
Qed.

(** C10, as stated, fails: the first variant's polyline has six points, not
    five. *)
Lemma App1_polyline_not_five :
  List.length (points (App1.Edge3D (mkPosition 0 0) (mkPosition 200 100))) <> 5%nat.
Proof. simpl. discriminate. Qed.

(** C10, amended. For every pair of positions the first variant's route has
    exactly six waypoints and the second variant's exactly three; both have
    at least three. *)
Theorem polyline_sizes (sp tp : Position) :
  List.length (points (App1.Edge3D sp tp)) = 6%nat
  /\ List.length (points (App2.Edge3D sp tp)) = 3%nat
  /\ (3 <= List.length (points (App1.Edge3D sp tp)))%nat
  /\ (3 <= List.length (points (App2.Edge3D sp tp)))%nat.
Proof. simpl. repeat split; repeat constructor. Qed.

(** ** The arrow head *)

Lemma atan2_origin : JSMath.atan2 0 0 = 0.
Proof.
  unfold JSMath.atan2.
  destruct (Rlt_dec 0 0) as [H|_]; [lra|]. reflexivity.
Qed.

Lemma atan2_down (b : R) : b < 0 -> JSMath.atan2 b 0 = - (PI / 2).
Proof.
  intros Hb. unfold JSMath.atan2.
  destruct (Rlt_dec 0 0) as [H|_]; [lra|].
  destruct (Rlt_dec 0 b) as [H|_]; [lra|].
  destruct (Rlt_dec b 0) as [_|H]; [reflexivity|lra].
Qed.

Lemma atan2_up (b : R) : 0 < b -> JSMath.atan2 b 0 = PI / 2.
Proof.
  intros Hb. unfold JSMath.atan2.
  destruct (Rlt_dec 0 0) as [H|_]; [lra|].
  destruct (Rlt_dec 0 b) as [_|H]; [reflexivity|lra].
Qed.

(** [atan2] only depends on the direction of its argument. *)
Lemma atan2_scale (b a k : R) :
  0 < k -> JSMath.atan2 (b * k) (a * k) = JSMath.atan2 b a.
Proof.
  intros Hk. unfold JSMath.atan2.
  destruct (Rlt_dec 0 a) as [Ha|Ha].
  - destruct (Rlt_dec 0 (a * k)) as [_|H]; [|exfalso; apply H; nra].
    f_equal. field. split; lra.
  - destruct (Rlt_dec 0 (a * k)) as [H|_]; [exfalso; nra|].
    destruct (Rlt_dec a 0) as [Ha'|Ha'].
    + destruct (Rlt_dec (a * k) 0) as [_|H]; [|exfalso; apply H; nra].
      replace (b * k / (a * k)) with (b / a) by (field; split; lra).
      destruct (Rle_dec 0 b) as [Hb|Hb];
        destruct (Rle_dec 0 (b * k)) as [Hbk|Hbk];
        try reflexivity; exfalso; try (apply Hbk; nra); nra.
    + assert (a = 0) by lra. subst a.
      destruct (Rlt_dec (0 * k) 0) as [H|_]; [exfalso; lra|].
      destruct (Rlt_dec 0 b) as [Hb|Hb];
        destruct (Rlt_dec 0 (b * k)) as [Hbk|Hbk];
        try reflexivity; try (exfalso; apply Hbk; nra); try (exfalso; nra).
      destruct (Rlt_dec b 0) as [Hb'|Hb'];
        destruct (Rlt_dec (b * k) 0) as [Hbk'|Hbk'];
        try reflexivity; try (exfalso; apply Hbk'; nra); exfalso; nra.
Qed.

(** Normalising a vector does not change the angle of its planar part,
    whether its length is zero or not. *)
Lemma atan2_normalize (v : Vector3) :
  JSMath.atan2 (vy (THREE.normalize v)) (vx (THREE.normalize v))
  = JSMath.atan2 (vy v) (vx v).
Proof.
  unfold THREE.normalize, THREE.divideScalar, THREE.multiplyScalar. simpl.
  apply atan2_scale.
  destruct (Req_dec_T (THREE.length v) 0) as [E|E].
  - lra.
  - assert (0 <= THREE.length v) by apply sqrt_pos.
    apply Rdiv_lt_0_compat; lra.
Qed.

(** The rotation computed by the second variant's [Edge3D], read off its
    own waypoints. *)
Lemma App2_rotation (sp tp : Position) :
  let pts := points (App2.Edge3D sp tp) in
  let m := nth 1 pts (mkVector3 0 0 0) in
  let e := nth 2 pts (mkVector3 0 0 0) in
  vz (arrowRotation (App2.Edge3D sp tp))
  = JSMath.atan2 (vy (THREE.normalize (THREE.subVectors e m)))
                 (vx (THREE.normalize (THREE.subVectors e m))) + PI / 2.
Proof. reflexivity. Qed.

Lemma App2_rotation_segment (sp tp : Position) :
  vz (arrowRotation (App2.Edge3D sp tp))
  = segment_angle (spec_elbow (App2.scenePoint sp) (App2.scenePoint tp))
                  (App2.scenePoint tp) + PI / 2.
Proof.
  rewrite App2_rotation. cbv zeta. rewrite App2_points. cbn [nth].
  rewrite atan2_normalize. reflexivity.
Qed.

Lemma App2_arrow_follows (sp tp : Position) :
  arrow_follows_final_segment (App2.Edge3D sp tp).
Proof.
  unfold arrow_follows_final_segment.
  exists (spec_elbow (App2.scenePoint sp) (App2.scenePoint tp)), (App2.scenePoint tp).
  split.
  - rewrite App2_points. reflexivity.
  - apply App2_rotation_segment.
Qed.

(** C9, as stated, fails for the first variant: its arrow head is always
    rotated by PI, while its final segment points straight down, whose angle
    turned by 90 degrees is 0. *)
Lemma App1_arrow_constant :
  vz (arrowRotation (App1.Edge3D (mkPosition 0 0) (mkPosition 200 100))) = PI
  /\ vz (arrowRotation (App1.Edge3D (mkPosition 0 0) (mkPosition (-100) 100))) = PI
  /\ ~ arrow_follows_final_segment (App1.Edge3D (mkPosition 0 0) (mkPosition 200 100)).
Proof.
  split; [reflexivity|]. split; [reflexivity|].
  intros [m [e [Hseg Hrot]]]. simpl in Hseg. injection Hseg as <- <-.
  simpl in Hrot. unfold segment_angle in Hrot. simpl in Hrot.
  replace (- (100) / 25 + 0.5 - (- (100) / 25 + 0.5 + 0.8)) with (- 0.8) in Hrot by lra.
  replace (200 / 25 - 200 / 25) with 0 in Hrot by lra.
  rewrite atan2_down in Hrot by lra.
  pose proof PI_RGT_0. lra.
Qed.

Lemma spec_elbow_horizontal_first (s e : Vector3) :
  Rabs (vy e - vy s) < Rabs (vx e - vx s) ->
  spec_elbow s e = mkVector3 (vx e) (vy s) (vz s).
Proof.
  intros H. unfold spec_elbow.
  destruct (Rlt_dec (Rabs (vy e - vy s)) (Rabs (vx e - vx s))); [reflexivity|contradiction].
Qed.

Lemma spec_elbow_vertical_first (s e : Vector3) :
  Rabs (vx e - vx s) <= Rabs (vy e - vy s) ->
  spec_elbow s e = mkVector3 (vx s) (vy e) (vz s).
Proof.
  intros H. unfold spec_elbow.
  destruct (Rlt_dec (Rabs (vy e - vy s)) (Rabs (vx e - vx s))); [lra|].
  destruct (Rlt_dec (Rabs (vx e - vx s)) (Rabs (vy e - vy s))); reflexivity.
Qed.

(** Whichever way the quarter turn is taken, one of the two variants does
    not follow it: the first variant's constant PI is the final segment's
    angle turned by -PI/2 and not by +PI/2, the second variant's rotation is
    the angle turned by +PI/2 and not by -PI/2. *)
Lemma arrow_turn_senses_disagree :
  ~ arrow_turned_by (PI / 2) (App1.Edge3D (mkPosition 0 0) (mkPosition 200 100))
  /\ arrow_turned_by (- (PI / 2)) (App1.Edge3D (mkPosition 0 0) (mkPosition 200 100))
  /\ ~ arrow_turned_by (- (PI / 2)) (App2.Edge3D (mkPosition 0 0) (mkPosition 100 50))
  /\ arrow_turned_by (PI / 2) (App2.Edge3D (mkPosition 0 0) (mkPosition 100 50)).
Proof.
  assert (A1 : forall m e,
             final_segment (points (App1.Edge3D (mkPosition 0 0) (mkPosition 200 100)))
             = Some (m, e) -> segment_angle m e = - (PI / 2)).
  { intros m e H. simpl in H. injection H as <- <-. unfold segment_angle. simpl.
    replace (200 / 25 - 200 / 25) with 0 by lra.
    apply atan2_down. lra. }
  assert (A2 : forall m e,
             final_segment (points (App2.Edge3D (mkPosition 0 0) (mkPosition 100 50)))
             = Some (m, e) -> segment_angle m e = - (PI / 2)).
  { intros m e H. rewrite App2_points in H. simpl in H. injection H as <- <-.
    rewrite spec_elbow_horizontal_first
      by (unfold App2.scenePoint; cbn [vx vy x y]; eval_Rabs).
    unfold segment_angle, App2.scenePoint. cbn [vx vy x y].
    replace (100 / 50 - 100 / 50) with 0 by lra.
    apply atan2_down. lra. }
  assert (R2 : vz (arrowRotation (App2.Edge3D (mkPosition 0 0) (mkPosition 100 50))) = 0).
  { pose proof (App2_arrow_follows (mkPosition 0 0) (mkPosition 100 50))
      as [m [e [H Hr]]].
    rewrite Hr, (A2 m e H). lra. }
  split; [|split; [|split]].
  - intros [m [e [H [Hc _]]]]. rewrite (A1 m e H) in Hc.
    replace (- (PI / 2) + PI / 2) with 0 in Hc by lra.
    simpl in Hc. rewrite cos_PI, cos_0 in Hc. lra.
  - eexists. eexists. split; [reflexivity|].
    rewrite (A1 _ _ eq_refl).
    replace (- (PI / 2) + - (PI / 2)) with (- PI) by lra.
    rewrite cos_neg, sin_neg. simpl. rewrite sin_PI. split; [reflexivity|lra].
  - intros [m [e [H [Hc _]]]]. rewrite (A2 m e H), R2 in Hc.
    replace (- (PI / 2) + - (PI / 2)) with (- PI) in Hc by lra.
    rewrite cos_neg, cos_PI, cos_0 in Hc. lra.
  - destruct (App2_arrow_follows (mkPosition 0 0) (mkPosition 100 50))
      as [m [e [H Hr]]].
    exists m, e. split; [exact H|]. rewrite Hr. split; reflexivity.
Qed.

(** C9, amended. In the second variant the rotation of the arrow head is the
    angle of the final segment (elbow to end) plus PI/2, for every pair of
    positions, and it does vary (0 for the edge from (0, 0) to (100, 50), PI
    for the edge from (0, 0) to (100, -50)); in the first variant the
    rotation is the constant PI. *)
Theorem arrow_rotation :
  (forall sp tp, arrow_follows_final_segment (App2.Edge3D sp tp))
  /\ vz (arrowRotation (App2.Edge3D (mkPosition 0 0) (mkPosition 100 50))) = 0
  /\ vz (arrowRotation (App2.Edge3D (mkPosition 0 0) (mkPosition 100 (-50)))) = PI
  /\ (forall sp tp, arrowRotation (App1.Edge3D sp tp) = mkVector3 0 0 PI).
Proof.
  split; [exact App2_arrow_follows|]. split; [|split].
  - rewrite App2_rotation_segment, spec_elbow_horizontal_first.
    + unfold segment_angle, App2.scenePoint. cbn [vx vy x y].
      replace (100 / 50 - 100 / 50) with 0 by lra.
      rewrite atan2_down by lra. lra.
    + unfold App2.scenePoint. cbn [vx vy x y]. eval_Rabs.
  - rewrite App2_rotation_segment, spec_elbow_horizontal_first.
    + unfold segment_angle, App2.scenePoint. cbn [vx vy x y].
      replace (100 / 50 - 100 / 50) with 0 by lra.
      rewrite atan2_up by lra. lra.
    + unfold App2.scenePoint. cbn [vx vy x y]. eval_Rabs.
  - reflexivity.
Qed.

(** ** Coincident endpoints *)

Lemma spec_elbow_same (s : Vector3) : spec_elbow s s = s.
Proof.
  rewrite spec_elbow_vertical_first.
  - destruct s; reflexivity.
  - replace (vx s - vx s) with 0 by lra. replace (vy s - vy s) with 0 by lra. lra.
Qed.

Lemma length_subVectors_same (s : Vector3) : THREE.length (THREE.subVectors s s) = 0.
Proof.
  unfold THREE.length, THREE.subVectors. cbn [vx vy vz].
  replace ((vx s - vx s) * (vx s - vx s) + (vy s - vy s) * (vy s - vy s)
           + (vz s - vz s) * (vz s - vz s)) with 0 by lra.
  apply sqrt_0.
Qed.

Lemma Edge3DOutput_eta (o : Edge3DOutput) :
  o = mkEdge3DOutput (points o) (arrowPosition o) (arrowRotation o).
Proof. destruct o; reflexivity. Qed.

Lemma edgesWithPositions_dangling (s : State) (e : Edge) :
  In e (edges s) ->
  find_node (source e) (nodes s) = None ->
  find_node (target e) (nodes s) = None ->
  In (mkEdgeWithPositions e (mkPosition 0 0) (mkPosition 0 0)) (edgesWithPositions s).
Proof.
  intros Hin Hs Ht. unfold edgesWithPositions. apply in_map_iff.
  exists e. rewrite Hs, Ht. split; [reflexivity|exact Hin].
Qed.

(** C8. Given the same position twice, the second variant's [Edge3D] (a
    total function, with no failing branch) returns the three-point route
    whose points all coincide with the scene point of that position, of total
    length zero, with the arrow head at that point and rotated by PI/2; and an
    edge both of whose endpoints are missing is handed to [Edge3D] with the
    fallback position (0, 0) twice, so it is rendered as that degenerate
    route at the origin. *)
Theorem degenerate_route :
  (forall p,
      let s := mkVector3 (x p / 50) ((- y p) / 50) 0.005 in
      App2.Edge3D p p = mkEdge3DOutput [s; s; s] s (mkVector3 0 0 (PI / 2))
      /\ polyline_length (points (App2.Edge3D p p)) = 0)
  /\ (forall s e,
         In e (edges s) ->
         find_node (source e) (nodes s) = None ->
         find_node (target e) (nodes s) = None ->
         let o := mkVector3 (0 / 50) ((- 0) / 50) 0.005 in
         In (mkEdge3DOutput [o; o; o] o (mkVector3 0 0 (PI / 2))) (App2.renderEdges s)).
Proof.
  assert (D : forall p,
             App2.Edge3D p p
             = mkEdge3DOutput [App2.scenePoint p; App2.scenePoint p; App2.scenePoint p]
                              (App2.scenePoint p) (mkVector3 0 0 (PI / 2))).
  { intros p. rewrite (Edge3DOutput_eta (App2.Edge3D p p)). f_equal.
    - rewrite App2_points, spec_elbow_same. reflexivity.
    - change (arrowRotation (App2.Edge3D p p))
        with (mkVector3 0 0 (vz (arrowRotation (App2.Edge3D p p)))).
      rewrite App2_rotation_segment, spec_elbow_same. unfold segment_angle.
      replace (vy (App2.scenePoint p) - vy (App2.scenePoint p)) with 0 by lra.
      replace (vx (App2.scenePoint p) - vx (App2.scenePoint p)) with 0 by lra.
      rewrite atan2_origin. f_equal. lra. }
  split.
  - intros p. cbv zeta. split.
    + apply D.
    + rewrite D. cbn [points polyline_length].
      rewrite length_subVectors_same. lra.
  - intros s e Hin Hs Ht. cbv zeta.
    pose proof (edgesWithPositions_dangling s e Hin Hs Ht) as H.
    apply (in_map (fun edge => App2.Edge3D (sourcePosition edge) (targetPosition edge)))
      in H.
    cbn [sourcePosition targetPosition] in H. rewrite D in H. exact H.
Qed.

Lemma degenerate_route_witness :
  let s := mkState [] [mkEdge "e1-2" "1" "2" None None] None in
  let o := mkVector3 (0 / 50) ((- 0) / 50) 0.005 in
  In (mkEdge3DOutput [o; o; o] o (mkVector3 0 0 (PI / 2))) (App2.renderEdges s).
Proof.
  cbv zeta.
  apply (proj2 degenerate_route
               (mkState [] [mkEdge "e1-2" "1" "2" None None] None)
               (mkEdge "e1-2" "1" "2" None None)).
  - left. reflexivity.
  - reflexivity.
  - reflexivity.
Defined.

(** ** Connecting *)

Lemma falsy_false (a : string) : a <> "" -> XYFlow.falsy a = false.
Proof.
  intros H. unfold XYFlow.falsy. destruct (String.eqb a "") eqn:E; [|reflexivity].
  apply String.eqb_eq in E. contradiction.
Qed.

(** C6, as stated, fails: in the seed state, [onConnect] with the source
    "nonexistent" (which names no node) and the target "2" appends an edge. *)
Lemma onConnect_accepts_unknown_source :
  let c := mkConnection "nonexistent" "2" None None in
  unknown_endpoint initialState c
  /\ edges (onConnect XYFlow.addEdge c initialState)
     = (initialEdges ++ [mkEdge "xy-edge__nonexistent-2" "nonexistent" "2" None None])%list
  /\ ~ rejects_unknown_endpoints XYFlow.addEdge.
Proof.
  cbv zeta.
  assert (U : unknown_endpoint initialState (mkConnection "nonexistent" "2" None None)).
  { left. simpl. intros [H|[H|[H|[]]]]; discriminate H. }
  split; [exact U|]. split; [reflexivity|].
  intros H. specialize (H _ _ U). discriminate H.
Qed.

(** C6, amended. [onConnect] hands the connection and the current edge list
    to the library's [addEdge] and stores the result: the nodes and the
    selection are untouched, the new edge list does not depend on the node
    list (so no liveness check can take place), and no error is signalled;
    with the library's [addEdge], a connection with a non-empty source and
    target that is not listed yet is appended as a new edge, whether or not
    its endpoints name nodes of the store. *)
Theorem onConnect_unchecked :
  (forall addEdge c s,
      nodes (onConnect addEdge c s) = nodes s
      /\ selectedNode (onConnect addEdge c s) = selectedNode s)
  /\ (forall addEdge c s s',
         edges s = edges s' ->
         edges (onConnect addEdge c s) = edges (onConnect addEdge c s'))
  /\ (forall c s,
         let edge := mkEdge (XYFlow.getEdgeId c) (conn_source c) (conn_target c)
                            (conn_sourceHandle c) (conn_targetHandle c) in
         conn_source c <> "" -> conn_target c <> "" ->
         XYFlow.connectionExists edge (edges s) = false ->
         edges (onConnect XYFlow.addEdge c s) = (edges s ++ [edge])%list).
Proof.
  split; [|split].
  - intros addEdge c s. split; reflexivity.
  - intros addEdge c s s' H. simpl. rewrite H. reflexivity.
  - intros c s edge Hs Ht Hex. simpl. unfold XYFlow.addEdge.
    rewrite (falsy_false _ Hs), (falsy_false _ Ht). simpl.
    fold edge. rewrite Hex. reflexivity.
Qed.

Lemma onConnect_unchecked_witness :
  edges (onConnect XYFlow.addEdge (mkConnection "nonexistent" "2" None None)
                   (mkState [] initialEdges None))
  = edges (onConnect XYFlow.addEdge (mkConnection "nonexistent" "2" None None)
                     initialState)
  /\ edges (onConnect XYFlow.addEdge (mkConnection "nonexistent" "2" None None)
                      initialState)
     = (initialEdges ++ [mkEdge "xy-edge__nonexistent-2" "nonexistent" "2" None None])%list.
Proof.
  split.
  - apply (proj1 (proj2 onConnect_unchecked)). reflexivity.
  - apply (proj2 (proj2 onConnect_unchecked)
                 (mkConnection "nonexistent" "2" None None) initialState).
    + discriminate.
    + discriminate.
    + reflexivity.
Defined.

(** * Further properties of the store *)

Lemma filter_filter_and {A : Type} (f g : A -> bool) (l : list A) :
  filter f (filter g l) = filter (fun a => g a && f a) l.
Proof.
  induction l as [|a l IH]; simpl; [reflexivity|].
  destruct (g a); simpl; [|exact IH].
  destruct (f a); rewrite IH; reflexivity.
Qed.

Lemma filter_map_stable {A : Type} (g : A -> bool) (f : A -> A) (l : list A) :
  (forall a, g (f a) = g a) -> filter g (map f l) = map f (filter g l).
Proof.
  intros H. induction l as [|a l IH]; simpl; [reflexivity|].
  rewrite H. destruct (g a); simpl; rewrite IH; reflexivity.
Qed.

Lemma NoDup_map_filter {A B : Type} (f : A -> B) (g : A -> bool) (l : list A) :
  NoDup (map f l) -> NoDup (map f (filter g l)).
Proof.
  induction l as [|a l IH]; simpl; intros H; [exact H|].
  inversion H as [|b m Hnotin Hnodup]; subst.
  destruct (g a); simpl; [|apply IH; exact Hnodup].
  constructor; [|apply IH; exact Hnodup].
  intros Hin. apply Hnotin. apply in_map_iff in Hin. destruct Hin as [c [Hc Hin]].
  apply filter_In in Hin. rewrite <- Hc. apply in_map. apply Hin.
Qed.

(** The function that [updateNodePosition] maps over the nodes. *)
Lemma updateNodePosition_nodes (i : string) (p : Position) (s : State) :
  nodes (updateNodePosition i p s)
  = map (fun n => if String.eqb (id n) i then mkNode (id n) (label n) p (type n) else n)
        (nodes s).
Proof.
  simpl. apply map_ext. intros n. unfold strict_eq. destruct p. reflexivity.
Qed.

Lemma State_eq (a b : State) :
  nodes a = nodes b -> edges a = edges b -> selectedNode a = selectedNode b -> a = b.
Proof. destruct a, b. simpl. intros -> -> ->. reflexivity. Qed.

Lemma deleteNode_edges_live (i : string) (s : State) :
  edges_live s -> edges_live (deleteNode i s).
Proof.
  intros H e He. apply deleteNode_edges in He. destruct He as [He [Hs Ht]].
  destruct (H e He) as [Is It].
  split; apply deleteNode_node_ids; auto.
Qed.

(** X1. After [deleteNode(id)] no edge has [id] as an endpoint, whatever the
    state was; if every edge joined live nodes before, every edge does after;
    a well-formed state stays well-formed; and node ids that were pairwise
    distinct stay so. *)
Theorem deleteNode_keeps_store_consistent (i : string) (s : State) :
  (forall e, In e (edges (deleteNode i s)) -> source e <> i /\ target e <> i)
  /\ (edges_live s -> edges_live (deleteNode i s))
  /\ (well_formed s -> well_formed (deleteNode i s))
  /\ (NoDup (node_ids s) -> NoDup (node_ids (deleteNode i s))).
Proof.
  split; [|split; [|split]].
  - intros e He. apply deleteNode_edges in He. tauto.
  - apply deleteNode_edges_live.
  - intros [He Hs]. split.
    + apply deleteNode_edges_live. exact He.
    + apply deleteNode_selection_live. exact Hs.
  - intros H. unfold node_ids. simpl. apply NoDup_map_filter. exact H.
Qed.

Lemma deleteNode_keeps_store_consistent_witness :
  well_formed (deleteNode "2" initialState)
  /\ NoDup (node_ids (deleteNode "2" initialState)).
Proof.
  assert (N : NoDup (node_ids initialState)).
  { simpl. repeat constructor; simpl; intros H;
      repeat (destruct H as [H|H]; [discriminate H|]); exact H. }
  split.
  - exact (proj1 (proj2 (proj2 (deleteNode_keeps_store_consistent "2" initialState)))
             initialState_well_formed).
  - exact (proj2 (proj2 (proj2 (deleteNode_keeps_store_consistent "2" initialState))) N).
Defined.

Lemma deleteNode_selection_comm (i j : string) (sel : option string) :
  (if selected_is (if selected_is sel j then None else sel) i then None
   else if selected_is sel j then None else sel)
  = (if selected_is (if selected_is sel i then None else sel) j then None
     else if selected_is sel i then None else sel).
Proof.
  destruct sel as [k|]; simpl; [|reflexivity].
  destruct (strict_eq k j) eqn:Ej; destruct (strict_eq k i) eqn:Ei; simpl;
    rewrite ?Ej, ?Ei; reflexivity.
Qed.

(** X2. Deleting the same id twice is the same as deleting it once, and two
    deletions give the same state in either order. *)
Theorem deleteNode_idempotent_commutative (i j : string) (s : State) :
  deleteNode i (deleteNode i s) = deleteNode i s
  /\ deleteNode i (deleteNode j s) = deleteNode j (deleteNode i s).
Proof.
  split.
  - apply State_eq; simpl.
    + rewrite filter_filter_and. apply filter_ext. intros n.
      destruct (strict_neq (id n) i); reflexivity.
    + rewrite filter_filter_and. apply filter_ext. intros e.
      destruct (strict_neq (source e) i && strict_neq (target e) i); reflexivity.
    + destruct (selectedNode s) as [k|]; simpl; [|reflexivity].
      destruct (strict_eq k i) eqn:E; simpl; [reflexivity|]. rewrite E. reflexivity.
  - apply State_eq; simpl.
    + rewrite !filter_filter_and. apply filter_ext. intros n. apply andb_comm.
    + rewrite !filter_filter_and. apply filter_ext. intros e. apply andb_comm.
    + apply deleteNode_selection_comm.
Qed.

(** X3. For one id the last [updateNodePosition] wins; moves of two
    different ids commute; and a move commutes with a deletion. *)
Theorem updateNodePosition_composition (i j : string) (p q : Position) (s : State) :
  updateNodePosition i q (updateNodePosition i p s) = updateNodePosition i q s
  /\ (i <> j ->
      updateNodePosition i p (updateNodePosition j q s)
      = updateNodePosition j q (updateNodePosition i p s))
  /\ deleteNode j (updateNodePosition i p s) = updateNodePosition i p (deleteNode j s).
Proof.
  split; [|split].
  - apply State_eq; try reflexivity. simpl. rewrite map_map. apply map_ext.
    intros n. destruct (strict_eq (id n) i) eqn:E; simpl; rewrite E; reflexivity.
  - intros Hij. apply State_eq; try reflexivity. simpl. rewrite !map_map.
    apply map_ext. intros n.
    destruct (strict_eq (id n) i) eqn:Ei; destruct (strict_eq (id n) j) eqn:Ej;
      simpl; rewrite ?Ei, ?Ej; try reflexivity.
    apply strict_eq_true in Ei. apply strict_eq_true in Ej. congruence.
  - apply State_eq; try reflexivity. simpl.
    apply (filter_map_stable (fun node => strict_neq (id node) j)).
    intros n. destruct (strict_eq (id n) i); reflexivity.
Qed.

Lemma updateNodePosition_composition_witness :
  updateNodePosition "1" (mkPosition 50 50)
    (updateNodePosition "2" (mkPosition 7 7) initialState)
  = updateNodePosition "2" (mkPosition 7 7)
      (updateNodePosition "1" (mkPosition 50 50) initialState).
Proof.
  apply (proj1 (proj2 (updateNodePosition_composition
                         "1" "2" (mkPosition 50 50) (mkPosition 7 7) initialState))).
  discriminate.
Defined.

(** ** Looking nodes up *)

Lemma find_node_some (i : string) (nds : list Node) (n : Node) :
  find_node i nds = Some n -> In n nds /\ id n = i.
Proof.
  intros H. apply find_some in H. destruct H as [Hin He].
  split; [exact Hin|]. apply strict_eq_true. exact He.
Qed.

Lemma find_node_none (i : string) (nds : list Node) :
  find_node i nds = None <-> ~ In i (map id nds).
Proof.
  split.
  - intros H Hin. apply in_map_iff in Hin. destruct Hin as [n [Hn Hin]].
    pose proof (find_none _ _ H n Hin) as E. simpl in E.
    subst i. rewrite strict_eq_refl in E. discriminate E.
  - intros H. destruct (find_node i nds) as [n|] eqn:E; [|reflexivity].
    apply find_node_some in E. destruct E as [Hin Hid].
    exfalso. apply H. subst i. apply in_map. exact Hin.
Qed.

Lemma find_node_present (i : string) (nds : list Node) :
  In i (map id nds) -> exists n, find_node i nds = Some n.
Proof.
  intros H. destruct (find_node i nds) as [n|] eqn:E; [exists n; reflexivity|].
  apply find_node_none in E. contradiction.
Qed.

Lemma find_node_map (j : string) (f : Node -> Node) (nds : list Node) :
  (forall n, id (f n) = id n) ->
  find_node j (map f nds) = option_map f (find_node j nds).
Proof.
  intros H. unfold find_node. induction nds as [|n nds IH]; simpl; [reflexivity|].
  rewrite H. destruct (strict_eq (id n) j); [reflexivity|exact IH].
Qed.

Lemma find_node_updateNodePosition (i j : string) (p : Position) (s : State) :
  find_node j (nodes (updateNodePosition i p s))
  = option_map
      (fun n => if String.eqb (id n) i then mkNode (id n) (label n) p (type n) else n)
      (find_node j (nodes s)).
Proof.
  rewrite updateNodePosition_nodes. apply find_node_map.
  intros n. destruct (String.eqb (id n) i); reflexivity.
Qed.

Lemma find_node_moved (i : string) (p : Position) (s : State) (n : Node) :
  find_node i (nodes s) = Some n ->
  find_node i (nodes (updateNodePosition i p s))
  = Some (mkNode (id n) (label n) p (type n)).
Proof.
  intros H. rewrite find_node_updateNodePosition, H. simpl.
  apply find_node_some in H. destruct H as [_ ->].
  rewrite String.eqb_refl. reflexivity.
Qed.

Lemma find_node_not_moved (i j : string) (p : Position) (s : State) :
  j <> i ->
  find_node j (nodes (updateNodePosition i p s)) = find_node j (nodes s).
Proof.
  intros Hj. rewrite find_node_updateNodePosition.
  destruct (find_node j (nodes s)) as [n|] eqn:E; [|reflexivity]. simpl.
  apply find_node_some in E. destruct E as [_ E].
  destruct (String.eqb (id n) i) eqn:Ei; [|reflexivity].
  apply String.eqb_eq in Ei. congruence.
Qed.

(** X4. Looking a node up after a move: the node found under the moved id is
    the one found before with its position replaced; a lookup of any other
    id finds what it found before; and an id that names no node still names
    none. *)
Theorem find_after_updateNodePosition (i : string) (p : Position) (s : State) :
  (forall n, find_node i (nodes s) = Some n ->
             find_node i (nodes (updateNodePosition i p s))
             = Some (mkNode (id n) (label n) p (type n)))
  /\ (forall j, j <> i ->
                find_node j (nodes (updateNodePosition i p s)) = find_node j (nodes s))
  /\ (forall j, find_node j (nodes s) = None ->
                find_node j (nodes (updateNodePosition i p s)) = None).
Proof.
  split; [|split].
  - intros n. apply find_node_moved.
  - intros j. apply find_node_not_moved.
  - intros j H. rewrite find_node_updateNodePosition, H. reflexivity.
Qed.

Lemma find_after_updateNodePosition_witness :
  find_node "2" (nodes (updateNodePosition "2" (mkPosition 50 50) initialState))
  = Some (mkNode "2" "Node 2" (mkPosition 50 50) "custom")
  /\ find_node "3" (nodes (updateNodePosition "2" (mkPosition 50 50) initialState))
     = find_node "3" (nodes initialState).
Proof.
  split.
  - exact (proj1 (find_after_updateNodePosition "2" (mkPosition 50 50) initialState)
             (mkNode "2" "Node 2" (mkPosition 200 100) "custom") eq_refl).
  - apply (proj1 (proj2 (find_after_updateNodePosition "2" (mkPosition 50 50) initialState))).
    discriminate.
Defined.

(** X5. Edges read positions live: after moving a node that exists, the
    list handed to the 3D edges is the previous one, edge by edge and in the
    same order, with the new position at every end that is the moved node and
    every other end unchanged. *)
Theorem edgesWithPositions_after_move (i : string) (p : Position) (s : State) :
  In i (node_ids s) ->
  edgesWithPositions (updateNodePosition i p s)
  = map (fun edge =>
           mkEdgeWithPositions (ewp_edge edge)
             (if String.eqb (source (ewp_edge edge)) i then p else sourcePosition edge)
             (if String.eqb (target (ewp_edge edge)) i then p else targetPosition edge))
        (edgesWithPositions s).
Proof.
  intros Hi. unfold edgesWithPositions. rewrite map_map.
  change (edges (updateNodePosition i p s)) with (edges s).
  apply map_ext. intros e. cbn [ewp_edge sourcePosition targetPosition].
  destruct (find_node_present i (nodes s) Hi) as [n Hn].
  assert (E : forall j,
             position_or_origin (find_node j (nodes (updateNodePosition i p s)))
             = if String.eqb j i then p
               else position_or_origin (find_node j (nodes s))).
  { intros j. destruct (String.eqb j i) eqn:Eji.
    - apply String.eqb_eq in Eji. subst j.
      rewrite (find_node_moved i p s n Hn). reflexivity.
    - assert (j <> i) as Hne
          by (intros ->; rewrite String.eqb_refl in Eji; discriminate Eji).
      rewrite (find_node_not_moved i j p s Hne). reflexivity. }
  rewrite !E. reflexivity.
Qed.

Lemma edgesWithPositions_after_move_witness :
  edgesWithPositions (updateNodePosition "1" (mkPosition 50 50) initialState)
  = [ mkEdgeWithPositions (mkEdge "e1-2" "1" "2" None None)
                          (mkPosition 50 50) (mkPosition 200 100);
      mkEdgeWithPositions (mkEdge "e1-3" "1" "3" None None)
                          (mkPosition 50 50) (mkPosition (-100) 100) ].
Proof.
  rewrite (edgesWithPositions_after_move "1" (mkPosition 50 50) initialState).
  - reflexivity.
  - left. reflexivity.
Defined.

Lemma missing_node_false (s : State) (e : Edge) :
  missing_node s e = false
  <-> In (source e) (node_ids s) /\ In (target e) (node_ids s).
Proof.
  unfold missing_node, node_ids. split.
  - destruct (find_node (source e) (nodes s)) as [a|] eqn:Ea; [|discriminate].
    destruct (find_node (target e) (nodes s)) as [b|] eqn:Eb; [|discriminate].
    intros _. apply find_node_some in Ea. apply find_node_some in Eb.
    destruct Ea as [Ia <-]. destruct Eb as [Ib <-].
    split; apply in_map; assumption.
  - intros [Hs Ht].
    destruct (find_node_present _ _ Hs) as [a ->].
    destruct (find_node_present _ _ Ht) as [b ->]. reflexivity.
Qed.

(** X6. The "Missing node for edge" branch of [edgesWithPositions] is taken
    for an edge exactly when one of its endpoints names no node.  When every
    edge joins live nodes it is never taken, and each edge is handed to the 3D
    view with the positions of two nodes of the store that carry the ids of
    its source and target; the list handed over has one entry per edge, in
    the order of the edges. *)
Theorem edgesWithPositions_no_fallback (s : State) :
  (forall e, missing_node s e = true
             <-> ~ In (source e) (node_ids s) \/ ~ In (target e) (node_ids s))
  /\ map ewp_edge (edgesWithPositions s) = edges s
  /\ (edges_live s ->
      forall e, In e (edges s) ->
        missing_node s e = false
        /\ exists ns nt,
             In ns (nodes s) /\ In nt (nodes s)
             /\ id ns = source e /\ id nt = target e
             /\ In (mkEdgeWithPositions e (position ns) (position nt))
                   (edgesWithPositions s)).
Proof.
  split; [|split].
  - intros e. unfold missing_node, node_ids.
    destruct (find_node (source e) (nodes s)) as [a|] eqn:Ea;
      destruct (find_node (target e) (nodes s)) as [b|] eqn:Eb.
    + split; [discriminate|]. apply find_node_some in Ea. apply find_node_some in Eb.
      destruct Ea as [Ia Ha]. destruct Eb as [Ib Hb].
      intros [H|H]; exfalso; apply H; [rewrite <- Ha|rewrite <- Hb];
        apply in_map; assumption.
    + split; [|reflexivity]. intros _. right. apply find_node_none. exact Eb.
    + split; [|reflexivity]. intros _. left. apply find_node_none. exact Ea.
    + split; [|reflexivity]. intros _. left. apply find_node_none. exact Ea.
  - unfold edgesWithPositions. rewrite map_map. simpl. apply map_id.
  - intros Hlive e He. destruct (Hlive e He) as [Hs Ht]. split.
    + apply missing_node_false. split; assumption.
    + destruct (find_node_present _ _ Hs) as [ns Ens].
      destruct (find_node_present _ _ Ht) as [nt Ent].
      exists ns, nt.
      destruct (find_node_some _ _ _ Ens) as [Ins Hns].
      destruct (find_node_some _ _ _ Ent) as [Int Hnt].
      repeat split; try assumption.
      unfold edgesWithPositions. apply in_map_iff. exists e.
      rewrite Ens, Ent. split; [reflexivity|exact He].
Qed.

Lemma edgesWithPositions_no_fallback_witness :
  missing_node initialState (mkEdge "e1-2" "1" "2" None None) = false.
Proof.
  apply (proj2 (proj2 (edgesWithPositions_no_fallback initialState))
               (proj1 initialState_well_formed)
               (mkEdge "e1-2" "1" "2" None None)).
  left. reflexivity.
Defined.

(** ** Sequences of events *)

Lemma handle_well_formed (ev : Event) (s : State) :
  well_formed s -> selects_rendered s ev -> well_formed (handle ev s).
Proof.
  intros [He Hs] Hev. destruct ev as [i| |i p|i]; simpl in *.
  - split; [exact He|]. intros j Hj. simpl in Hj. injection Hj as <-. exact Hev.
  - split; [exact He|]. intros j Hj. discriminate Hj.
  - split.
    + intros e Hin. change (In e (edges s)) in Hin.
      change (node_ids (setSelectedNode (Some i) (updateNodePosition i p s)))
        with (node_ids (updateNodePosition i p s)).
      rewrite updateNodePosition_node_ids. apply He. exact Hin.
    + intros j Hj. simpl in Hj. injection Hj as <-.
      change (In i (node_ids (updateNodePosition i p s))).
      rewrite updateNodePosition_node_ids. exact Hev.
  - split; [apply deleteNode_edges_live; exact He
           |apply deleteNode_selection_live; exact Hs].
Qed.

Lemma handle_node_ids (ev : Event) (s : State) :
  incl (node_ids (handle ev s)) (node_ids s)
  /\ (NoDup (node_ids s) -> NoDup (node_ids (handle ev s))).
Proof.
  destruct ev as [i| |i p|i]; simpl.
  - split; [apply incl_refl|auto].
  - split; [apply incl_refl|auto].
  - change (node_ids (setSelectedNode (Some i) (updateNodePosition i p s)))
      with (node_ids (updateNodePosition i p s)).
    rewrite updateNodePosition_node_ids. split; [apply incl_refl|auto].
  - split.
    + intros j Hj. apply deleteNode_node_ids in Hj. apply Hj.
    + intros H. unfold node_ids. simpl. apply NoDup_map_filter. exact H.
Qed.

Lemma handle_edges (ev : Event) (s : State) : incl (edges (handle ev s)) (edges s).
Proof.
  destruct ev as [i| |i p|i]; simpl; try apply incl_refl.
  intros e He. apply filter_In in He. apply He.
Qed.

(** X7. Along any sequence of view events in which every click and drag is
    on a node rendered at that moment, starting from a well-formed state with
    pairwise distinct node ids: the state stays well-formed, the ids stay
    distinct, no node id and no edge appears that was not there at the start,
    and no edge ever takes the missing-node fallback. *)
Theorem run_keeps_store_consistent (evs : list Event) (s : State) :
  well_formed s -> NoDup (node_ids s) -> run_selects_rendered evs s ->
  well_formed (run evs s)
  /\ NoDup (node_ids (run evs s))
  /\ incl (node_ids (run evs s)) (node_ids s)
  /\ incl (edges (run evs s)) (edges s)
  /\ (forall e, In e (edges (run evs s)) -> missing_node (run evs s) e = false).
Proof.
  revert s. induction evs as [|ev evs IH]; intros s Hwf Hnd Hr; simpl in *.
  - split; [exact Hwf|]. split; [exact Hnd|].
    split; [apply incl_refl|]. split; [apply incl_refl|].
    intros e He. apply missing_node_false. apply (proj1 Hwf). exact He.
  - destruct Hr as [Hev Hr].
    destruct (handle_node_ids ev s) as [Hincl Hnd'].
    destruct (IH (handle ev s) (handle_well_formed ev s Hwf Hev) (Hnd' Hnd) Hr)
      as [A [B [C [D E]]]].
    split; [exact A|]. split; [exact B|].
    split; [eapply incl_tran; eassumption|].
    split; [eapply incl_tran; [exact D|apply handle_edges]|exact E].
Qed.

Lemma run_keeps_store_consistent_witness :
  let evs := [NodeClick "1"; Drag "1" (mkPosition 50 50); DeleteClick "1"; PaneClick] in
  well_formed (run evs initialState) /\ NoDup (node_ids (run evs initialState)).
Proof.
  cbv zeta.
  assert (N : NoDup (node_ids initialState)).
  { simpl. repeat constructor; simpl; intros H;
      repeat (destruct H as [H|H]; [discriminate H|]); exact H. }
  assert (R : run_selects_rendered
                [NodeClick "1"; Drag "1" (mkPosition 50 50); DeleteClick "1"; PaneClick]
                initialState).
  { simpl. repeat split; left; reflexivity. }
  pose proof (run_keeps_store_consistent _ initialState initialState_well_formed N R) as H.
  split; [exact (proj1 H)|exact (proj1 (proj2 H))].
Defined.

(** ** What the views show *)

Lemma NoDup_map_In_inj {A B : Type} (f : A -> B) (l : list A) (a b : A) :
  NoDup (map f l) -> In a l -> In b l -> f a = f b -> a = b.
Proof.
  induction l as [|c l IH]; simpl; intros Hnd Ha Hb Hf; [contradiction|].
  inversion Hnd as [|d m Hnotin Hnd']; subst.
  destruct Ha as [->|Ha]; destruct Hb as [->|Hb].
  - reflexivity.
  - exfalso. apply Hnotin. rewrite Hf. apply in_map. exact Hb.
  - exfalso. apply Hnotin. rewrite <- Hf. apply in_map. exact Ha.
  - apply IH; assumption.
Qed.

Lemma pivotScale_nonzero (sel : option string) (i : string) :
  pivotScale sel i <> 0 <-> sel = Some i.
Proof.
  unfold pivotScale. destruct sel as [k|]; simpl.
  - destruct (strict_eq k i) eqn:E.
    + apply strict_eq_true in E. subst k. split; [reflexivity|]. intros _. lra.
    + split; [intros H; exfalso; apply H; reflexivity|].
      intros H. injection H as ->. rewrite strict_eq_refl in E. discriminate E.
  - split; [intros H; exfalso; apply H; reflexivity|discriminate].
Qed.

(** X8. The drag gizmo of a 3D node has a non-zero scale exactly when that
    node is the selected one, and then the scale is 1.2 and the mesh has the
    highlight colour.  With pairwise distinct node ids at most one rendered
    node has a visible gizmo; with nothing selected none has; and when the
    selection names a live node exactly that gizmo is visible. *)
Theorem single_visible_gizmo (s : State) :
  (forall i, pivotScale (selectedNode s) i <> 0
             <-> (selectedNode s = Some i
                  /\ pivotScale (selectedNode s) i = 1.2
                  /\ meshColor (selectedNode s) i = "#ff8800"))
  /\ (selectedNode s = None -> forall i, pivotScale (selectedNode s) i = 0)
  /\ (NoDup (node_ids s) ->
      forall n m, In n (nodes s) -> In m (nodes s) ->
        pivotScale (selectedNode s) (id n) <> 0 ->
        pivotScale (selectedNode s) (id m) <> 0 -> n = m)
  /\ (selection_live s ->
      forall i, selectedNode s = Some i ->
        exists n, In n (nodes s) /\ id n = i
                  /\ pivotScale (selectedNode s) (id n) = 1.2).
Proof.
  split; [|split; [|split]].
  - intros i. split.
    + intros H. apply pivotScale_nonzero in H. rewrite H.
      unfold pivotScale, meshColor. simpl. rewrite strict_eq_refl. auto.
    + intros [H _]. apply pivotScale_nonzero. exact H.
  - intros H i. rewrite H. reflexivity.
  - intros Hnd n m Hn Hm Sn Sm.
    apply pivotScale_nonzero in Sn. apply pivotScale_nonzero in Sm.
    apply (NoDup_map_In_inj id (nodes s)); try assumption. congruence.
  - intros Hlive i Hi. pose proof (Hlive i Hi) as Hin.
    apply in_map_iff in Hin. destruct Hin as [n [Hid Hin]].
    exists n. split; [exact Hin|]. split; [exact Hid|].
    rewrite Hi, Hid. unfold pivotScale. simpl. rewrite strict_eq_refl. reflexivity.
Qed.

Lemma single_visible_gizmo_witness :
  exists n, In n (nodes (handle (NodeClick "2") initialState)) /\ id n = "2"
            /\ pivotScale (selectedNode (handle (NodeClick "2") initialState)) (id n) = 1.2.
Proof.
  apply (proj2 (proj2 (proj2 (single_visible_gizmo (handle (NodeClick "2") initialState))))).
  - intros i Hi. injection Hi as <-. right. left. reflexivity.
  - reflexivity.
Defined.

(** X9. The panel shows "None" exactly when nothing is selected, or the
    selected id is the empty string (which is falsy), or the selected id is
    itself "None"; in every other case it shows the selected id.  After the
    selected node is deleted it shows "None". *)
Theorem panelSelected_none (sel : option string) :
  (panelSelected sel = "None"
   <-> sel = None \/ sel = Some "" \/ sel = Some "None")
  /\ (forall i, sel = Some i -> i <> "" -> panelSelected sel = i)
  /\ (forall s i, selectedNode s = Some i ->
                  panelSelected (selectedNode (deleteNode i s)) = "None").
Proof.
  split; [|split].
  - destruct sel as [i|]; simpl.
    + destruct (String.eqb i "") eqn:E.
      * apply String.eqb_eq in E. subst i. split; auto.
      * split.
        -- intros ->. auto.
        -- intros [H|[H|H]]; [discriminate H| |congruence].
           injection H as ->. discriminate E.
    + split; auto.
  - intros i -> Hi. simpl. destruct (String.eqb i "") eqn:E; [|reflexivity].
    apply String.eqb_eq in E. contradiction.
  - intros s i H. rewrite (deleteNode_clears_selection i s H). reflexivity.
Qed.

Lemma panelSelected_none_witness :
  panelSelected (selectedNode (deleteNode "2" (setSelectedNode (Some "2") initialState)))
  = "None".
Proof.
  exact (proj2 (proj2 (panelSelected_none None))
               (setSelectedNode (Some "2") initialState) "2" eq_refl).
Defined.

(** X10. Clicking a node [n] times never changes the nodes or the edges,
    leaves that node selected as soon as [n] is positive, and leaves its
    option menu in its initial state when [n] is even and flipped when [n] is
    odd; the delete button closes the menu and deletes the node. *)
Theorem clicks_toggle_menu (n : nat) (i : string) (ui : bool * State) :
  fst (clicks n i ui) = xorb (Nat.odd n) (fst ui)
  /\ nodes (snd (clicks n i ui)) = nodes (snd ui)
  /\ edges (snd (clicks n i ui)) = edges (snd ui)
  /\ ((0 < n)%nat -> selectedNode (snd (clicks n i ui)) = Some i)
  /\ handleDeleteNode i (clicks n i ui) = (false, deleteNode i (snd (clicks n i ui))).
Proof.
  assert (Hsel : forall k u, selectedNode (snd u) = Some i ->
                             selectedNode (snd (clicks k i u)) = Some i).
  { induction k as [|k IHk]; intros u Hu; simpl; [exact Hu|].
    apply IHk. reflexivity. }
  split; [|split; [|split; [|split]]].
  - revert ui. induction n as [|n IH]; intros ui; simpl clicks.
    + reflexivity.
    + rewrite IH. simpl fst. rewrite Nat.odd_succ, <- Nat.negb_odd.
      destruct (Nat.odd n), (fst ui); reflexivity.
  - revert ui. induction n as [|n IH]; intros ui; simpl; [reflexivity|].
    rewrite IH. reflexivity.
  - revert ui. induction n as [|n IH]; intros ui; simpl; [reflexivity|].
    rewrite IH. reflexivity.
  - intros Hn. destruct n as [|n]; [inversion Hn|]. simpl.
    apply Hsel. reflexivity.
  - reflexivity.
Qed.

Lemma clicks_toggle_menu_witness :
  selectedNode (snd (clicks 2 "3" (false, initialState))) = Some "3".
Proof.
  apply (proj1 (proj2 (proj2 (proj2 (clicks_toggle_menu 2 "3" (false, initialState)))))).
  repeat constructor.
Defined.

(** X11. In either view mode exactly one of the two views is displayed and
    the other is hidden, and the button of the displayed view is the light
    one while the other button is dark. *)
Theorem one_view_displayed (viewMode : ViewMode) :
  (display2D viewMode = "block" /\ display3D viewMode = "hidden"
   /\ button2D viewMode = "bg-gray-100 text-black"
   /\ button3D viewMode = "bg-gray-700 text-white"
   /\ viewMode = view2d)
  \/ (display2D viewMode = "hidden" /\ display3D viewMode = "block"
      /\ button2D viewMode = "bg-gray-700 text-white"
      /\ button3D viewMode = "bg-gray-100 text-black"
      /\ viewMode = view3d).
Proof.
  destruct viewMode; [left|right]; repeat split.
Qed.

(** * Further properties of the routes *)

Lemma spec_elbow_cases (s e : Vector3) :
  spec_elbow s e = mkVector3 (vx e) (vy s) (vz s)
  \/ spec_elbow s e = mkVector3 (vx s) (vy e) (vz s).
Proof.
  unfold spec_elbow.
  destruct (Rlt_dec (Rabs (vy e - vy s)) (Rabs (vx e - vx s))); [left; reflexivity|].
  destruct (Rlt_dec (Rabs (vx e - vx s)) (Rabs (vy e - vy s))); right; reflexivity.
Qed.

(** X12. Both routers draw orthogonal routes in one plane: for every pair of
    positions each segment of the polyline runs along the x axis or along the
    y axis, and every waypoint has z = 0.005. *)
Theorem routes_orthogonal (sp tp : Position) :
  orthogonal (points (App1.Edge3D sp tp))
  /\ orthogonal (points (App2.Edge3D sp tp))
  /\ Forall (fun v => vz v = 0.005) (points (App1.Edge3D sp tp))
  /\ Forall (fun v => vz v = 0.005) (points (App2.Edge3D sp tp)).
Proof.
  split; [|split; [|split]].
  - simpl. unfold axis_aligned. simpl. repeat split; auto.
  - rewrite App2_points. simpl. unfold axis_aligned.
    destruct (spec_elbow_cases (App2.scenePoint sp) (App2.scenePoint tp)) as [E|E];
      rewrite E; simpl; repeat split; auto.
  - simpl. repeat constructor.
  - rewrite App2_points.
    destruct (spec_elbow_cases (App2.scenePoint sp) (App2.scenePoint tp)) as [E|E];
      rewrite E; simpl; repeat constructor.
Qed.

Lemma length_along_x (a b : Vector3) :
  vy a = vy b -> vz a = vz b ->
  THREE.length (THREE.subVectors b a) = Rabs (vx b - vx a).
Proof.
  intros Hy Hz. unfold THREE.length, THREE.subVectors. cbn [vx vy vz].
  rewrite Hy, Hz.
  replace ((vx b - vx a) * (vx b - vx a) + (vy b - vy b) * (vy b - vy b)
           + (vz b - vz b) * (vz b - vz b))
    with (Rsqr (vx b - vx a)) by (unfold Rsqr; lra).
  apply sqrt_Rsqr_abs.
Qed.

Lemma length_along_y (a b : Vector3) :
  vx a = vx b -> vz a = vz b ->
  THREE.length (THREE.subVectors b a) = Rabs (vy b - vy a).
Proof.
  intros Hx Hz. unfold THREE.length, THREE.subVectors. cbn [vx vy vz].
  rewrite Hx, Hz.
  replace ((vx b - vx b) * (vx b - vx b) + (vy b - vy a) * (vy b - vy a)
           + (vz b - vz b) * (vz b - vz b))
    with (Rsqr (vy b - vy a)) by (unfold Rsqr; lra).
  apply sqrt_Rsqr_abs.
Qed.

(** X13. The second variant's route is as long as the Manhattan distance of
    its end points: the absolute horizontal plus the absolute vertical
    difference of the two planar positions, divided by 50, whichever axis is
    traversed first. *)
Theorem App2_route_length (sp tp : Position) :
  polyline_length (points (App2.Edge3D sp tp))
  = (Rabs (x tp - x sp) + Rabs (y tp - y sp)) / 50.
Proof.
  rewrite App2_points. cbn [polyline_length].
  assert (Hx : Rabs (x tp / 50 - x sp / 50) = Rabs (x tp - x sp) / 50).
  { replace (x tp / 50 - x sp / 50) with ((x tp - x sp) * / 50) by lra.
    rewrite Rabs_mult, (Rabs_right (/ 50)) by lra. lra. }
  assert (Hy : Rabs (- y tp / 50 - - y sp / 50) = Rabs (y tp - y sp) / 50).
  { replace (- y tp / 50 - - y sp / 50) with ((- (y tp - y sp)) * / 50) by lra.
    rewrite Rabs_mult, Rabs_Ropp, (Rabs_right (/ 50)) by lra. lra. }
  destruct (spec_elbow_cases (App2.scenePoint sp) (App2.scenePoint tp)) as [E|E];
    rewrite E.
  - rewrite (length_along_x (App2.scenePoint sp)) by reflexivity.
    rewrite (length_along_y _ (App2.scenePoint tp)) by reflexivity.
    unfold App2.scenePoint. cbn [vx vy vz]. rewrite Hx, Hy. lra.
  - rewrite (length_along_y (App2.scenePoint sp)) by reflexivity.
    rewrite (length_along_x _ (App2.scenePoint tp)) by reflexivity.
    unfold App2.scenePoint. cbn [vx vy vz]. rewrite Hx, Hy. lra.
Qed.

Lemma atan2_right (a : R) : 0 < a -> JSMath.atan2 0 a = 0.
Proof.
  intros Ha. unfold JSMath.atan2.
  destruct (Rlt_dec 0 a) as [_|H]; [|contradiction].
  replace (0 / a) with 0 by (field; lra). apply atan_0.
Qed.

Lemma atan2_left (a : R) : a < 0 -> JSMath.atan2 0 a = PI.
Proof.
  intros Ha. unfold JSMath.atan2.
  destruct (Rlt_dec 0 a) as [H|_]; [lra|].
  destruct (Rlt_dec a 0) as [_|H]; [|contradiction].
  destruct (Rle_dec 0 0) as [_|H]; [|lra].
  replace (0 / a) with 0 by (field; lra). rewrite atan_0. lra.
Qed.

(** X14. The second variant's arrow head takes one of four rotations, read
    off the final segment of its own route, from the elbow to the end point.
    That segment runs along one axis; the rotation is PI if it points up
    (the end point has the larger y), 0 if it points down, 3 PI/2 if it
    points left, and PI/2 if it points right or has length zero.  In
    particular an edge between two positions with the same x or the same y
    always gets PI/2, whatever its direction. *)
Theorem App2_arrow_by_final_segment (sp tp : Position) :
  (exists m e,
      final_segment (points (App2.Edge3D sp tp)) = Some (m, e)
      /\ (vx m = vx e \/ vy m = vy e)
      /\ vz (arrowRotation (App2.Edge3D sp tp))
         = (if Rlt_dec (vy m) (vy e) then PI
            else if Rlt_dec (vy e) (vy m) then 0
            else if Rlt_dec (vx e) (vx m) then 3 * PI / 2
            else PI / 2))
  /\ (vz (arrowRotation (App2.Edge3D sp tp)) = 0
      \/ vz (arrowRotation (App2.Edge3D sp tp)) = PI / 2
      \/ vz (arrowRotation (App2.Edge3D sp tp)) = PI
      \/ vz (arrowRotation (App2.Edge3D sp tp)) = 3 * PI / 2)
  /\ (x tp = x sp \/ y tp = y sp -> vz (arrowRotation (App2.Edge3D sp tp)) = PI / 2).
Proof.
  assert (Seg : exists m e,
             final_segment (points (App2.Edge3D sp tp)) = Some (m, e)
             /\ (vx m = vx e \/ vy m = vy e)
             /\ vz (arrowRotation (App2.Edge3D sp tp))
                = (if Rlt_dec (vy m) (vy e) then PI
                   else if Rlt_dec (vy e) (vy m) then 0
                   else if Rlt_dec (vx e) (vx m) then 3 * PI / 2
                   else PI / 2)).
  { exists (spec_elbow (App2.scenePoint sp) (App2.scenePoint tp)), (App2.scenePoint tp).
    split; [rewrite App2_points; reflexivity|].
    rewrite App2_rotation_segment. unfold segment_angle.
    destruct (spec_elbow_cases (App2.scenePoint sp) (App2.scenePoint tp)) as [E|E];
      rewrite E; cbn [vx vy].
    - split; [left; reflexivity|].
      replace (vx (App2.scenePoint tp) - vx (App2.scenePoint tp)) with 0 by lra.
      destruct (Rlt_dec (vy (App2.scenePoint sp)) (vy (App2.scenePoint tp))) as [A|A].
      + rewrite atan2_up by lra. lra.
      + destruct (Rlt_dec (vy (App2.scenePoint tp)) (vy (App2.scenePoint sp))) as [B|B].
        * rewrite atan2_down by lra. lra.
        * replace (vy (App2.scenePoint tp) - vy (App2.scenePoint sp)) with 0 by lra.
          rewrite atan2_origin.
          destruct (Rlt_dec (vx (App2.scenePoint tp)) (vx (App2.scenePoint tp)));
            lra.
    - split; [right; reflexivity|].
      replace (vy (App2.scenePoint tp) - vy (App2.scenePoint tp)) with 0 by lra.
      destruct (Rlt_dec (vy (App2.scenePoint tp)) (vy (App2.scenePoint tp))) as [A|_];
        [lra|].
      destruct (Rlt_dec (vx (App2.scenePoint tp)) (vx (App2.scenePoint sp))) as [A|A].
      + rewrite atan2_left by lra. lra.
      + destruct (Rlt_dec (vx (App2.scenePoint sp)) (vx (App2.scenePoint tp))) as [B|B].
        * rewrite atan2_right by lra. lra.
        * replace (vx (App2.scenePoint tp) - vx (App2.scenePoint sp)) with 0 by lra.
          rewrite atan2_origin. lra. }
  split; [exact Seg|]. split.
  - destruct Seg as [m [e [_ [_ R]]]]. rewrite R.
    destruct (Rlt_dec (vy m) (vy e)); [auto|].
    destruct (Rlt_dec (vy e) (vy m)); [auto|].
    destruct (Rlt_dec (vx e) (vx m)); auto.
  - intros H. rewrite App2_rotation_segment. unfold segment_angle.
    destruct (Rlt_dec (Rabs (vy (App2.scenePoint tp) - vy (App2.scenePoint sp)))
                      (Rabs (vx (App2.scenePoint tp) - vx (App2.scenePoint sp))))
      as [L|L].
    + rewrite (spec_elbow_horizontal_first _ _ L). cbn [vx vy].
      replace (vx (App2.scenePoint tp) - vx (App2.scenePoint tp)) with 0 by lra.
      destruct H as [H|H].
      * exfalso. unfold App2.scenePoint in L. cbn [vx vy] in L. rewrite H in L.
        replace (x sp / 50 - x sp / 50) with 0 in L by lra.
        rewrite Rabs_R0 in L. pose proof (Rabs_pos (- y tp / 50 - - y sp / 50)). lra.
      * unfold App2.scenePoint. cbn [vx vy]. rewrite H.
        replace (- y sp / 50 - - y sp / 50) with 0 by lra.
        rewrite atan2_origin. lra.
    + rewrite spec_elbow_vertical_first by lra. cbn [vx vy].
      replace (vy (App2.scenePoint tp) - vy (App2.scenePoint tp)) with 0 by lra.
      destruct H as [H|H].
      * unfold App2.scenePoint. cbn [vx vy]. rewrite H.
        replace (x sp / 50 - x sp / 50) with 0 by lra.
        rewrite atan2_origin. lra.
      * assert (Z : vx (App2.scenePoint tp) - vx (App2.scenePoint sp) = 0).
        { unfold App2.scenePoint in *. cbn [vx vy] in *. rewrite H in L.
          replace (- y sp / 50 - - y sp / 50) with 0 in L by lra.
          rewrite Rabs_R0 in L.
          destruct (Req_dec (x tp / 50 - x sp / 50) 0) as [E|E]; [exact E|].
          exfalso. apply L. apply Rabs_pos_lt. exact E. }
        rewrite Z, atan2_origin. lra.
Qed.

Lemma App2_arrow_by_final_segment_witness :
  vz (arrowRotation (App2.Edge3D (mkPosition 0 0) (mkPosition 200 0))) = PI / 2.
Proof.
  apply (proj2 (proj2 (App2_arrow_by_final_segment (mkPosition 0 0) (mkPosition 200 0)))).
  right. reflexivity.
Defined.

(** X15. In the first variant the vertical middle leg of the route (its
    third and fourth waypoints) lies at x = (target.x - source.x) / 50, half
    the horizontal distance of the two scene points measured from the scene
    origin; this is the midpoint between the route's start and end exactly
    when the source node has x = 0. *)
Theorem App1_middle_leg (sp tp : Position) :
  let pts := points (App1.Edge3D sp tp) in
  let o := mkVector3 0 0 0 in
  vx (nth 2 pts o) = (x tp - x sp) / 50
  /\ vx (nth 3 pts o) = (x tp - x sp) / 50
  /\ (vx (nth 2 pts o) = (vx (nth 0 pts o) + vx (nth 5 pts o)) / 2 <-> x sp = 0).
Proof.
  cbv zeta. simpl. repeat split; try lra.
Qed.

(** * Dragging a node in the 3D view *)

Lemma edgesWithPositions_in (s : State) (edge : EdgeWithPositions) :
  In edge (edgesWithPositions s) ->
  In (ewp_edge edge) (edges s)
  /\ sourcePosition edge
     = position_or_origin (find_node (source (ewp_edge edge)) (nodes s))
  /\ targetPosition edge
     = position_or_origin (find_node (target (ewp_edge edge)) (nodes s)).
Proof.
  unfold edgesWithPositions. intros H. apply in_map_iff in H.
  destruct H as [e [<- He]]. simpl. auto.
Qed.

(** X16. Edges follow a node dragged in the 3D view.  After [onDrag] of an
    existing node with a drag matrix whose translation is (mx, my, mz), the
    node is selected, and in both variants every rendered edge that starts at
    that node starts at (2 mx, 2 my, 0.005) and every rendered edge that ends
    at it ends at (2 mx, 2 my, 0.005), raised by 0.5 in the first variant;
    the z translation of the drag plays no part. *)
Theorem edges_follow_drag (i : string) (matrix : Vector3) (s : State) :
  In i (node_ids s) ->
  selectedNode (App1.onDrag i matrix s) = Some i
  /\ selectedNode (App2.onDrag i matrix s) = Some i
  /\ (forall edge, In edge (edgesWithPositions (App1.onDrag i matrix s)) ->
        (source (ewp_edge edge) = i ->
         hd_error (points (App1.Edge3D (sourcePosition edge) (targetPosition edge)))
         = Some (mkVector3 (2 * vx matrix) (2 * vy matrix) 0.005))
        /\ (target (ewp_edge edge) = i ->
            hd_error (rev (points (App1.Edge3D (sourcePosition edge)
                                               (targetPosition edge))))
            = Some (mkVector3 (2 * vx matrix) (2 * vy matrix + 0.5) 0.005)))
  /\ (forall edge, In edge (edgesWithPositions (App2.onDrag i matrix s)) ->
        (source (ewp_edge edge) = i ->
         hd_error (points (App2.Edge3D (sourcePosition edge) (targetPosition edge)))
         = Some (mkVector3 (2 * vx matrix) (2 * vy matrix) 0.005))
        /\ (target (ewp_edge edge) = i ->
            hd_error (rev (points (App2.Edge3D (sourcePosition edge)
                                               (targetPosition edge))))
            = Some (mkVector3 (2 * vx matrix) (2 * vy matrix) 0.005))).
Proof.
  intros Hi. destruct (find_node_present i (nodes s) Hi) as [n Hn].
  split; [reflexivity|]. split; [reflexivity|]. split.
  - intros edge Hin. apply edgesWithPositions_in in Hin.
    destruct Hin as [_ [Es Et]].
    change (nodes (App1.onDrag i matrix s))
      with (nodes (updateNodePosition i (App1.dragged_position matrix) s)) in Es, Et.
    split; intros E; rewrite E in *.
    + rewrite (find_node_moved i _ s n Hn) in Es. rewrite Es.
      simpl. unfold THREE.setFromMatrixPosition. f_equal. f_equal; lra.
    + rewrite (find_node_moved i _ s n Hn) in Et. rewrite Et.
      simpl. unfold THREE.setFromMatrixPosition. f_equal. f_equal; lra.
  - intros edge Hin. apply edgesWithPositions_in in Hin.
    destruct Hin as [_ [Es Et]].
    change (nodes (App2.onDrag i matrix s))
      with (nodes (updateNodePosition i (App2.dragged_position matrix) s)) in Es, Et.
    split; intros E; rewrite E in *.
    + rewrite (find_node_moved i _ s n Hn) in Es. rewrite Es.
      simpl. unfold THREE.setFromMatrixPosition. f_equal. f_equal; lra.
    + rewrite (find_node_moved i _ s n Hn) in Et. rewrite Et.
      simpl. unfold THREE.setFromMatrixPosition. f_equal. f_equal; lra.
Qed.

Lemma edges_follow_drag_witness :
  hd_error (points (App1.Edge3D (mkPosition (3 * 50) (- 4 * 50)) (mkPosition 200 100)))
  = Some (mkVector3 (2 * 3) (2 * 4) 0.005).
Proof.
  assert (Hi : In "1" (node_ids initialState)) by (left; reflexivity).
  pose proof (edges_follow_drag "1" (mkVector3 3 4 9) initialState Hi) as H.
  destruct H as [_ [_ [H1 _]]].
  assert (Hin : In (mkEdgeWithPositions (mkEdge "e1-2" "1" "2" None None)
                      (mkPosition (3 * 50) (- 4 * 50)) (mkPosition 200 100))
                   (edgesWithPositions (App1.onDrag "1" (mkVector3 3 4 9) initialState)))
    by (left; reflexivity).
  exact (proj1 (H1 _ Hin) eq_refl).
Defined.

Lemma Position_eq (p q : Position) : x p = x q -> y p = y q -> p = q.
Proof. destruct p, q. simpl. intros -> ->. reflexivity. Qed.

Lemma Node3D_useEffect_synced (p : Position) (refs : Node3DRefs) (g : Vector3) :
  groupRef refs = Some g ->
  Node3D_synced p (Node3D_useEffect p refs)
  /\ isDraggingRef (Node3D_useEffect p refs) = false.
Proof.
  intros H. unfold Node3D_useEffect. rewrite H. cbv zeta.
  unfold Node3D_synced, App1.Node3D_position. simpl. auto.
Qed.

Lemma Node3D_rerender_synced (previous p : Position) (refs : Node3DRefs) :
  Node3D_synced previous refs -> Node3D_synced p (Node3D_rerender previous p refs).
Proof.
  intros H. unfold Node3D_rerender.
  destruct (Req_dec_T (x previous) (x p)) as [Ex|Ex];
    [destruct (Req_dec_T (y previous) (y p)) as [Ey|Ey]|].
  - rewrite <- (Position_eq previous p Ex Ey). exact H.
  - apply (Node3D_useEffect_synced p refs _ (proj1 H)).
  - apply (Node3D_useEffect_synced p refs _ (proj1 H)).
Qed.

(** X17. The group of a first-variant [Node3D] never drifts from the node's
    planar position.  After mounting it sits at (x/50, -y/50, 0.005) and no
    drag is in progress; a render with any new position keeps it in step,
    whether or not the effect runs; a drag frame marks the drag as started,
    leaves the group where it was, writes the dragged position to the store,
    and after the following render the group sits at the x and y of the drag
    matrix with z = 0.005.  While the group is not attached a drag frame
    changes neither the refs nor the store. *)
Theorem Node3D_group_follows_position :
  (forall p, Node3D_synced p (Node3D_mount p) /\ isDraggingRef (Node3D_mount p) = false)
  /\ (forall previous p refs,
         Node3D_synced previous refs ->
         Node3D_synced p (Node3D_rerender previous p refs))
  /\ (forall previous i matrix refs s,
         Node3D_synced previous refs ->
         let refs' := fst (Node3D_handleTransformChange i matrix (refs, s)) in
         let s' := snd (Node3D_handleTransformChange i matrix (refs, s)) in
         let p := App1.dragged_position matrix in
         s' = App1.handleTransformChange i matrix s
         /\ Node3D_synced previous refs'
         /\ isDraggingRef refs' = true
         /\ Node3D_synced p (Node3D_rerender previous p refs')
         /\ groupRef (Node3D_rerender previous p refs')
            = Some (mkVector3 (vx matrix) (vy matrix) 0.005))
  /\ (forall i matrix refs s,
         groupRef refs = None ->
         Node3D_handleTransformChange i matrix (refs, s) = (refs, s)).
Proof.
  split; [|split; [|split]].
  - intros p. unfold Node3D_mount.
    apply (Node3D_useEffect_synced p _ (mkVector3 0 0 0)). reflexivity.
  - apply Node3D_rerender_synced.
  - intros previous i matrix refs s Hsync. cbv zeta.
    destruct Hsync as [Hg Hi].
    unfold Node3D_handleTransformChange. rewrite Hg. cbv zeta. cbn [fst snd].
    assert (Hsync' :
              Node3D_synced previous
                (if negb (isDraggingRef refs)
                 then mkNode3DRefs (Some (initialPositionRef refs))
                                   (initialPositionRef refs) true
                 else refs)).
    { destruct (isDraggingRef refs); simpl.
      - split; assumption.
      - split; simpl; [rewrite Hi; reflexivity|exact Hi]. }
    split; [reflexivity|]. split; [exact Hsync'|]. split.
    { destruct (isDraggingRef refs) eqn:E; simpl; [exact E|reflexivity]. }
    pose proof (Node3D_rerender_synced previous (App1.dragged_position matrix) _ Hsync')
      as Hs.
    split; [exact Hs|].
    rewrite (proj1 Hs). f_equal.
    unfold App1.Node3D_position, App1.dragged_position, THREE.setFromMatrixPosition.
    simpl. f_equal; lra.
  - intros i matrix refs s H. unfold Node3D_handleTransformChange. rewrite H.
    reflexivity.
Qed.

Lemma Node3D_group_follows_position_witness :
  groupRef (Node3D_rerender (mkPosition 200 100)
              (App1.dragged_position (mkVector3 3 4 9))
              (fst (Node3D_handleTransformChange "2" (mkVector3 3 4 9)
                      (Node3D_mount (mkPosition 200 100), initialState))))
  = Some (mkVector3 3 4 0.005).
Proof.
  exact (proj2 (proj2 (proj2 (proj2
           (proj1 (proj2 (proj2 Node3D_group_follows_position))
                  (mkPosition 200 100) "2" (mkVector3 3 4 9)
                  (Node3D_mount (mkPosition 200 100)) initialState
                  (proj1 (proj1 Node3D_group_follows_position (mkPosition 200 100)))))))).
Defined.

(** * Connecting with the library's [addEdge] *)

Lemma handle_eq_refl (h : option string) : XYFlow.handle_eq h h = true.
Proof. destruct h as [t|]; simpl; [apply String.eqb_refl|reflexivity]. Qed.

Lemma connectionExists_self (edge : Edge) (eds : list Edge) :
  XYFlow.connectionExists edge (eds ++ [edge]) = true.
Proof.
  unfold XYFlow.connectionExists. rewrite existsb_app. simpl.
  rewrite !strict_eq_refl, !handle_eq_refl. simpl. apply orb_true_r.
Qed.

Lemma addEdge_cases (c : Connection) (eds : list Edge) :
  XYFlow.addEdge c eds = eds
  \/ (conn_source c <> "" /\ conn_target c <> ""
      /\ XYFlow.addEdge c eds
         = (eds ++ [mkEdge (XYFlow.getEdgeId c) (conn_source c) (conn_target c)
                           (conn_sourceHandle c) (conn_targetHandle c)])%list).
Proof.
  unfold XYFlow.addEdge, XYFlow.falsy.
  destruct (String.eqb (conn_source c) "") eqn:Es; simpl; [left; reflexivity|].
  destruct (String.eqb (conn_target c) "") eqn:Et; simpl; [left; reflexivity|].
  destruct (XYFlow.connectionExists _ eds); [left; reflexivity|].
  right. split; [|split; [|reflexivity]]; intros H; rewrite H in *; discriminate.
Qed.

(** X18. With the library's [addEdge], [onConnect] keeps every existing
    edge in place and appends at most one; repeating the same connect request
    changes nothing further, so no connection is listed twice; nodes and
    selection are untouched; and when both endpoints of the request name live
    nodes, a store whose edges all joined live nodes keeps that property. *)
Theorem onConnect_library (c : Connection) (s : State) :
  (exists added, edges (onConnect XYFlow.addEdge c s) = (edges s ++ added)%list
                 /\ (List.length added <= 1)%nat)
  /\ onConnect XYFlow.addEdge c (onConnect XYFlow.addEdge c s)
     = onConnect XYFlow.addEdge c s
  /\ nodes (onConnect XYFlow.addEdge c s) = nodes s
  /\ selectedNode (onConnect XYFlow.addEdge c s) = selectedNode s
  /\ (In (conn_source c) (node_ids s) -> In (conn_target c) (node_ids s) ->
      edges_live s -> edges_live (onConnect XYFlow.addEdge c s)).
Proof.
  split; [|split; [|split; [|split]]]; try reflexivity.
  - simpl. destruct (addEdge_cases c (edges s)) as [E|[_ [_ E]]]; rewrite E.
    + exists []. rewrite app_nil_r. split; [reflexivity|]. simpl. auto.
    + eexists. split; [reflexivity|]. simpl. auto.
  - apply State_eq; try reflexivity. simpl.
    destruct (addEdge_cases c (edges s)) as [E|[Hs [Ht E]]]; rewrite E.
    + exact E.
    + unfold XYFlow.addEdge. rewrite (falsy_false _ Hs), (falsy_false _ Ht). simpl.
      rewrite connectionExists_self. reflexivity.
  - intros Hcs Hct Hlive e He. simpl in He.
    change (node_ids (onConnect XYFlow.addEdge c s)) with (node_ids s).
    destruct (addEdge_cases c (edges s)) as [E|[_ [_ E]]]; rewrite E in He.
    + apply Hlive. exact He.
    + apply in_app_or in He. destruct He as [He|[<-|[]]].
      * apply Hlive. exact He.
      * simpl. split; assumption.
Qed.

Lemma onConnect_library_witness :
  edges_live (onConnect XYFlow.addEdge (mkConnection "2" "3" None None) initialState).
Proof.
  apply (proj2 (proj2 (proj2 (proj2
           (onConnect_library (mkConnection "2" "3" None None) initialState))))).
  - right. left. reflexivity.
  - right. right. left. reflexivity.
  - exact (proj1 initialState_well_formed).
Defined.

(** * Deleting and the rendered edges *)

Lemma filter_map_swap {A B : Type} (h : B -> bool) (F : A -> B) (l : list A) :
  filter h (map F l) = map F (filter (fun a => h (F a)) l).
Proof.
  induction l as [|a l IH]; simpl; [reflexivity|].
  destruct (h (F a)); simpl; rewrite IH; reflexivity.
Qed.

Lemma find_node_deleteNode (i j : string) (s : State) :
  j <> i -> find_node j (nodes (deleteNode i s)) = find_node j (nodes s).
Proof.
  intros Hj. simpl. unfold find_node.
  induction (nodes s) as [|n nds IH]; simpl; [reflexivity|].
  destruct (strict_neq (id n) i) eqn:E; simpl.
  - destruct (strict_eq (id n) j); [reflexivity|exact IH].
  - unfold strict_neq in E. apply negb_false_iff in E. apply String.eqb_eq in E.
    destruct (strict_eq (id n) j) eqn:Ej; [|exact IH].
    apply strict_eq_true in Ej. congruence.
Qed.

(** X19. Deleting a node does not disturb the edges that remain: the list
    handed to the 3D edges after [deleteNode(id)] is the previous list with
    the entries of the edges touching [id] removed, every remaining entry
    keeping its order and both of its positions; and [id] itself is no longer
    found among the nodes. *)
Theorem edgesWithPositions_after_delete (i : string) (s : State) :
  edgesWithPositions (deleteNode i s)
  = filter (fun edge => strict_neq (source (ewp_edge edge)) i
                        && strict_neq (target (ewp_edge edge)) i)
           (edgesWithPositions s)
  /\ find_node i (nodes (deleteNode i s)) = None.
Proof.
  split.
  - unfold edgesWithPositions at 2. rewrite filter_map_swap. cbn [ewp_edge].
    unfold edgesWithPositions.
    change (edges (deleteNode i s))
      with (filter (fun edge => strict_neq (source edge) i && strict_neq (target edge) i)
                   (edges s)).
    apply map_ext_in. intros e He. apply filter_In in He. destruct He as [_ He].
    apply andb_true_iff in He. destruct He as [Hs Ht].
    apply strict_neq_true in Hs. apply strict_neq_true in Ht.
    rewrite (find_node_deleteNode i _ s Hs), (find_node_deleteNode i _ s Ht).
    reflexivity.
  - apply find_node_none. intros H.
    change (In i (node_ids (deleteNode i s))) in H.
    apply deleteNode_node_ids in H. destruct H as [_ H]. congruence.
Qed.

(** * The second variant's route on IEEE doubles *)

Module RouteOnDoubles.

Import Floats.
Import App2Doubles.
Local Open Scope float_scope.
Set Warnings "-inexact-float".

(** Comparing two floats the other way round gives the opposite answer. *)
Lemma SFcompare_antisym (a b : spec_float) :
  SFcompare b a = option_map CompOpp (SFcompare a b).
Proof.
  destruct a as [sa|sa| |sa ma ea], b as [sb|sb| |sb mb eb]; simpl;
    try reflexivity; try (destruct sa; reflexivity); try (destruct sb; reflexivity);
    try (destruct sa, sb; reflexivity).
  pose proof (BinPos.Pos.compare_cont_antisym ma mb Eq) as Hm. simpl in Hm.
  change (IntDef.Z.compare eb ea) with (BinInt.Z.compare eb ea).
  change (IntDef.Z.compare ea eb) with (BinInt.Z.compare ea eb).
  change PosDef.Pos.compare_cont with BinPos.Pos.compare_cont.
  rewrite (BinInt.Z.compare_antisym ea eb), <- Hm.
  destruct sa, sb; simpl; try reflexivity;
    destruct (BinInt.Z.compare ea eb); simpl; try reflexivity;
    destruct (BinPos.Pos.compare_cont Eq ma mb); reflexivity.
Qed.

Lemma ltb_asym (a b : float) : (a <? b) = true -> (b <? a) = false.
Proof.
  rewrite !ltb_spec. unfold SFltb.
  rewrite (SFcompare_antisym (Prim2SF a) (Prim2SF b)).
  destruct (SFcompare (Prim2SF a) (Prim2SF b)) as [[| |]|]; simpl; congruence.
Qed.

Lemma eqb_not_ltb (a b : float) : (a =? b) = true -> (b <? a) = false.
Proof.
  rewrite eqb_spec, ltb_spec. unfold SFeqb, SFltb.
  rewrite (SFcompare_antisym (Prim2SF a) (Prim2SF b)).
  destruct (SFcompare (Prim2SF a) (Prim2SF b)) as [[| |]|]; simpl; congruence.
Qed.

Lemma Edge3D_points_horizontal_first (sp tp : FPosition) :
  (yAxisDistance (scenePoint sp) (scenePoint tp)
   <? xAxisDistance (scenePoint sp) (scenePoint tp)) = true ->
  Edge3D_points sp tp
  = [scenePoint sp;
     mkFVector3 (fvx (scenePoint tp)) (fvy (scenePoint sp)) 0.005;
     scenePoint tp].
Proof.
  unfold Edge3D_points, xAxisDistance, yAxisDistance, scenePoint. cbn [fvx fvy].
  intros H. rewrite H. reflexivity.
Qed.

Lemma Edge3D_points_vertical_first (sp tp : FPosition) :
  (yAxisDistance (scenePoint sp) (scenePoint tp)
   <? xAxisDistance (scenePoint sp) (scenePoint tp)) = false ->
  Edge3D_points sp tp
  = [scenePoint sp;
     mkFVector3 (fvx (scenePoint sp)) (fvy (scenePoint tp)) 0.005;
     scenePoint tp].
Proof.
  unfold Edge3D_points, xAxisDistance, yAxisDistance, scenePoint. cbn [fvx fvy].
  intros H. rewrite H. reflexivity.
Qed.

(** C5, amended.  In the second variant the route is start, elbow, end, and
    the router compares the absolute differences of the computed scene
    coordinates (each planar coordinate divided by 50 in floating point, y
    negated).  If the horizontal one is strictly the larger, the elbow is
    (end.x, start.y): the horizontal leg comes first.  If the vertical one is
    strictly the larger, or the two are equal, or the comparison is undefined,
    the elbow is (start.x, end.y): the vertical leg comes first.  Planar
    positions with equal absolute deltas need not tie after the division:
    from (2, 0) to (5, 3) the horizontal leg comes first, from (0, 0) to
    (50, 50) the vertical one.  The first variant's route always begins with
    a vertical leg of 0.8 below its start. *)
Theorem App2_elbow_on_doubles (sp tp : FPosition) :
  let s := scenePoint sp in
  let e := scenePoint tp in
  let dx := xAxisDistance s e in
  let dy := yAxisDistance s e in
  ((dy <? dx) = true ->
   Edge3D_points sp tp = [s; mkFVector3 (fvx e) (fvy s) 0.005; e])
  /\ ((dx <? dy) = true ->
      Edge3D_points sp tp = [s; mkFVector3 (fvx s) (fvy e) 0.005; e])
  /\ ((dx =? dy) = true ->
      Edge3D_points sp tp = [s; mkFVector3 (fvx s) (fvy e) 0.005; e])
  /\ ((dy <? dx) = false ->
      Edge3D_points sp tp = [s; mkFVector3 (fvx s) (fvy e) 0.005; e])
  /\ Edge3D_points (mkFPosition 2 0) (mkFPosition 5 3)
     = [ mkFVector3 (2 / 50) ((- 0) / 50) 0.005;
         mkFVector3 (5 / 50) ((- 0) / 50) 0.005;
         mkFVector3 (5 / 50) ((- 3) / 50) 0.005 ]
  /\ Edge3D_points (mkFPosition 0 0) (mkFPosition 50 50)
     = [ mkFVector3 (0 / 50) ((- 0) / 50) 0.005;
         mkFVector3 (0 / 50) ((- 50) / 50) 0.005;
         mkFVector3 (50 / 50) ((- 50) / 50) 0.005 ]
  /\ (forall p q : Position,
         firstn 2 (points (App1.Edge3D p q))
         = [ mkVector3 (x p / 25)%R ((- y p) / 25)%R 0.005%R;
             mkVector3 (x p / 25)%R ((- y p) / 25 - 0.8)%R 0.005%R ]).
Proof.
  cbv zeta. split; [|split; [|split; [|split; [|split; [|split]]]]].
  - apply Edge3D_points_horizontal_first.
  - intros H. apply Edge3D_points_vertical_first. apply ltb_asym. exact H.
  - intros H. apply Edge3D_points_vertical_first. apply eqb_not_ltb. exact H.
  - apply Edge3D_points_vertical_first.
  - vm_compute. reflexivity.
  - vm_compute. reflexivity.
  - intros p q. reflexivity.
Qed.

Lemma App2_elbow_on_doubles_witness :
  Edge3D_points (mkFPosition 2 0) (mkFPosition 5 3)
  = [ scenePoint (mkFPosition 2 0);
      mkFVector3 (fvx (scenePoint (mkFPosition 5 3))) (fvy (scenePoint (mkFPosition 2 0)))
                 0.005;
      scenePoint (mkFPosition 5 3) ]
  /\ Edge3D_points (mkFPosition 0 0) (mkFPosition 50 50)
     = [ scenePoint (mkFPosition 0 0);
         mkFVector3 (fvx (scenePoint (mkFPosition 0 0)))
                    (fvy (scenePoint (mkFPosition 50 50))) 0.005;
         scenePoint (mkFPosition 50 50) ].
Proof.
  split.
  - apply (proj1 (App2_elbow_on_doubles (mkFPosition 2 0) (mkFPosition 5 3))).
    vm_compute. reflexivity.
  - apply (proj1 (proj2 (proj2 (App2_elbow_on_doubles (mkFPosition 0 0)
                                                       (mkFPosition 50 50))))).
    vm_compute. reflexivity.
Defined.

End RouteOnDoubles.
